(** * Graphene foundation: regions, nodes and the evolution step

    A shallow embedding of [Graphene.foundation.js]: the vector helpers, the
    utilities, class [Region] with its three methods, class [Node] with its
    constructor and [snapshot], and [evolveNode].

    Modelling conventions.
    - A JS number is a real number ([R]).  Rounding, [NaN] and the
      infinities are outside the model; every statement below is about the
      arithmetic the source writes, carried out exactly.
    - Objects that the program mutates after sharing them live in a store
      ([Store]): the [incubationHistory] and [history] arrays of a node and
      the [meanTheta] field of a region are reached through addresses, so
      that two references to one object see each other's writes.
    - [Math.random()] reads an ambient stream of draws ([Rng]); a call takes
      the head of the stream and leaves the tail.
    - A thrown exception is an explicit [Throw] completion. *)

From stdpp Require Import base gmap strings.
From Stdlib Require Import Reals Lra Lia ZArith.
Open Scope R_scope.

(** ** Numbers *)

#[global] Instance Rlt_decision : RelDecision Rlt := Rlt_dec.
#[global] Instance Rle_decision : RelDecision Rle := Rle_dec.
#[global] Instance Req_decision : EqDecision R := Req_dec_T.
#[global] Instance R_inhabited : Inhabited R := populate 0.

(** [a < b], [a > b], [a <= b] and [a !== 0] as the booleans JS computes. *)
Definition ltb (a b : R) : bool := bool_decide (a < b).
Definition gtb (a b : R) : bool := bool_decide (b < a).
Definition leb (a b : R) : bool := bool_decide (a <= b).
Definition truthy (a : R) : bool := bool_decide (a <> 0).

(** [a || b] on numbers: [b] when [a] is zero. *)
Definition orElse (a b : R) : R := if truthy a then a else b.

(** Rounding toward zero, and the remainder operator [a % b] that takes the
    sign of the dividend. *)
Definition Rtrunc (a : R) : Z := if bool_decide (a < 0) then Zceil a else Zfloor a.
Definition jsmod (a b : R) : R := a - b * IZR (Rtrunc (a / b)).

(** [Math.hypot] of a list of numbers. *)
Definition hypot (l : list R) : R := sqrt (foldr (fun v s => v * v + s) 0 l).

(** ** Vector helpers *)

Record Vec3 := mkVec3 { vx : R; vy : R; vz : R }.

Definition vadd (a b : Vec3) : Vec3 :=
  {| vx := vx a + vx b; vy := vy a + vy b; vz := orElse (vz a) 0 + orElse (vz b) 0 |}.
Definition vsub (a b : Vec3) : Vec3 :=
  {| vx := vx a - vx b; vy := vy a - vy b; vz := orElse (vz a) 0 - orElse (vz b) 0 |}.
Definition vscale (v : Vec3) (s : R) : Vec3 :=
  {| vx := vx v * s; vy := vy v * s; vz := orElse (vz v) 0 * s |}.
Definition vlen (v : Vec3) : R := hypot [vx v; vy v; orElse (vz v) 0].
Definition vnorm (v : Vec3) : Vec3 :=
  let l := orElse (vlen v) 1 in vscale v (1 / l).

Definition vzero : Vec3 := {| vx := 0; vy := 0; vz := 0 |}.

(** ** Utilities *)

Definition clamp (v a b : R) : R := Rmax a (Rmin b v).
Definition sum (arr : list R) : R := foldl (fun s v => s + v) 0 arr.
Definition avg (arr : list R) : R :=
  if bool_decide (length arr <> 0%nat) then sum arr / INR (length arr) else 0.
Definition vecDiff (a b : list R) : list R :=
  imap (fun i v => v - default 0 (b !! i)) a.

(** ** The store *)

Definition loc := positive.

(** What [snapshot] serialises before hashing.  The digest itself is the
    business of the external audit sink; a token is identified with the
    record it was computed from ([cp_t] is the clock reading). *)
Record Checkpoint := mkCheckpoint {
  cp_id : string; cp_hue : R; cp_rotation : R; cp_coherence : R;
  cp_entropy : R; cp_sandbox : R; cp_region : option string;
  cp_pos : Vec3; cp_t : Z }.

Record Store := mkStore {
  numArrays : gmap loc (list R);          (* arrays of numbers *)
  tokArrays : gmap loc (list Checkpoint); (* arrays of checkpoint tokens *)
  thetas : gmap loc R                     (* [meanTheta] of each region *)
}.

Definition setNumArray (l : loc) (a : list R) (s : Store) : Store :=
  {| numArrays := <[l := a]> (numArrays s); tokArrays := tokArrays s; thetas := thetas s |}.
Definition setTokArray (l : loc) (a : list Checkpoint) (s : Store) : Store :=
  {| numArrays := numArrays s; tokArrays := <[l := a]> (tokArrays s); thetas := thetas s |}.
Definition setTheta (l : loc) (v : R) (s : Store) : Store :=
  {| numArrays := numArrays s; tokArrays := tokArrays s; thetas := <[l := v]> (thetas s) |}.

(** The ambient random source. *)
Definition Rng := nat -> R.
Definition draw (g : Rng) : R := g 0%nat.
Definition rest (g : Rng) : Rng := fun k => g (S k).

(** ** Region *)

(** The fields of a region.  [self] is the address of the object, under which
    the store keeps its [meanTheta]; the other fields are never written after
    construction.  The [children] set is written by the constructor only and
    read nowhere. *)
#[warnings="-register-all"] Inductive Region := mkRegion {
  rid : string;
  parent : option Region;
  kappa : R;
  noise : R;
  observers : list string;   (* in insertion order *)
  generation : Z;
  fieldCenter : Vec3;
  fieldStrength : R;
  self : loc
}.

Definition meanTheta (s : Store) (r : Region) : R := thetas s !!! self r.

(** The loop of [effectiveKappa]: one iteration per region of the chain, with
    the accumulators [tot] and [wsum].  Generations are integers (0 at the
    root, the parent's plus one below it), and so is the generation [g] the
    method is asked at; the exponent is a natural number. *)
Fixpoint kappaWalk (g : Z) (cur : Region) (tot wsum : R) : R * R :=
  match cur with
  | mkRegion _ None k _ _ _ _ _ _ =>
      let w := 1 in (tot + w * k, wsum + w)
  | mkRegion _ (Some p) k _ _ gen _ _ _ =>
      let w := 0.88 ^ Z.to_nat (Z.max 0 (g - gen)) in
      kappaWalk g p (tot + w * k) (wsum + w)
  end.

Definition effectiveKappa (this : Region) (g : Z) : R :=
  let r := kappaWalk g this 0 0 in
  if truthy (snd r) then fst r / snd r else kappa this.

(** The call without an argument: [g] defaults to [this.generation]. *)
Definition effectiveKappa0 (this : Region) : R := effectiveKappa this (generation this).

Definition baseField (this : Region) (pos : Vec3) : Vec3 :=
  let toC := vsub (fieldCenter this) pos in
  let d := vlen toC + 1e-6 in
  vscale (vnorm toC) (fieldStrength this / (1 + 0.01 * d * d)).

Fixpoint computeField (this : Region) : Vec3 -> Vec3 :=
  match this with
  | mkRegion _ None _ _ _ _ _ _ _ => baseField this
  | mkRegion _ (Some p) _ _ _ _ _ _ _ =>
      let parentField := computeField p in
      fun pos => vadd (baseField this pos) (parentField pos)
  end.

Record Band := mkBand { L : R; U : R; center : R; halfWidth : R }.

(** The hue centre of a mean angle. *)
Definition hueCenter (theta : R) : R :=
  jsmod (jsmod theta (2 * PI) + 2 * PI) (2 * PI) / (2 * PI).

Definition allowedHueBand (this : Region) (thetaVec : list R) (coh : R) (s : Store)
  : Band * Store :=
  let meanTheta := avg thetaVec in
  let s' := setTheta (self this) meanTheta s in
  let spread := clamp (0.2 + (1 - clamp (coh / 100) 0 1) * 0.8) 0.05 1.5 in
  let center := hueCenter meanTheta in
  let hw := spread * (1 / (1 + effectiveKappa0 this * 8)) in
  ({| L := clamp (center - hw) 0 1; U := clamp (center + hw) 0 1;
      center := center; halfWidth := hw |}, s').

(** ** Node *)

(** The prototype an object was created with: [new Node(...)] gives an object
    whose prototype carries [snapshot]; an object literal, spread or not, has
    the plain object prototype. *)
Inductive Proto := NodeProto | ObjectProto.

Record Awareness := mkAwareness {
  velocity : R; alignmentScore : R; hueConvergence : R;
  gazeIntensity : R; isHappyChallenged : bool }.

(** The own properties of a node ([nid] is the source's [id]).  The two
    arrays that [evolveNode] or [snapshot] write are held by address. *)
Record Node := mkNode {
  proto : Proto;
  nid : string; type : string; angles : list R; sides : nat;
  hue : R; rotation : R; coherence : R; entropy : R; sandbox : R;
  stagnation : R; learningRate : R; growthPotential : R;
  pos : Vec3; vel : Vec3; acc : Vec3;
  mass : R; range : R; fov : R;
  incubating : bool; incubationHistory : loc; incubationScore : R;
  children : list string; observer : bool; region : option Region;
  awareness : Awareness; history : loc }.

Record NodeOpts := mkNodeOpts {
  o_hue : option R; o_rotation : option R; o_coherence : option R;
  o_entropy : option R; o_sandbox : option R;
  o_pos : option Vec3; o_vel : option Vec3; o_acc : option Vec3;
  o_mass : option R; o_range : option R; o_fov : option R;
  o_incubating : option bool; o_region : option Region }.

Definition noOpts : NodeOpts :=
  mkNodeOpts None None None None None None None None None None None None None.

(** [Node.prototype.snapshot]. *)
Definition snapshot (this : Node) (now : Z) (s : Store) : Store :=
  let p := {| cp_id := nid this; cp_hue := hue this; cp_rotation := rotation this;
              cp_coherence := coherence this; cp_entropy := entropy this;
              cp_sandbox := sandbox this; cp_region := rid <$> region this;
              cp_pos := pos this; cp_t := now |} in
  setTokArray (history this) ((tokArrays s !!! history this) ++ [p]) s.

(** Method lookup [o.snapshot]: found on the prototype chain, or undefined. *)
Definition lookupSnapshot (o : Node) : option (Node -> Z -> Store -> Store) :=
  match proto o with NodeProto => Some snapshot | ObjectProto => None end.

(** [opt ?? f(Math.random())]: the draw happens only when the option is absent. *)
Definition orDraw (o : option R) (f : R -> R) (g : Rng) : R * Rng :=
  match o with Some v => (v, g) | None => (f (draw g), rest g) end.

(** [new Node(id, type, angles, opts)] at clock reading [now]. *)
Definition newNode (id type : string) (angles : list R) (opts : NodeOpts)
    (now : Z) (s : Store) (g : Rng) : Node * Store * Rng :=
  let h := orDraw (o_hue opts) (fun r => r) g in
  let ro := orDraw (o_rotation opts) (fun r => r * PI * 2) (snd h) in
  let px := match o_pos opts with
            | Some p => (p, snd ro)
            | None =>
                let gx := snd ro in
                ({| vx := (draw gx - 0.5) * 40; vy := (draw (rest gx) - 0.5) * 40; vz := 0 |},
                 rest (rest gx))
            end in
  let lh := fresh (dom (numArrays s)) in
  let lt := fresh (dom (tokArrays s)) in
  let s1 := setTokArray lt [] (setNumArray lh [] s) in
  let this :=
    {| proto := NodeProto;
       nid := id; type := type; angles := angles; sides := length angles;
       hue := fst h; rotation := fst ro;
       coherence := default 50 (o_coherence opts);
       entropy := default 1 (o_entropy opts);
       sandbox := default 1 (o_sandbox opts);
       stagnation := 0; learningRate := 0; growthPotential := 0;
       pos := fst px;
       vel := default vzero (o_vel opts);
       acc := default vzero (o_acc opts);
       mass := default 1 (o_mass opts);
       range := default 30 (o_range opts);
       fov := default (PI * 0.9) (o_fov opts);
       incubating := default true (o_incubating opts);
       incubationHistory := lh; incubationScore := 0;
       children := []; observer := false; region := o_region opts;
       awareness := mkAwareness 0 0 0 0 false;
       history := lt |} in
  (this, snapshot this now s1, snd px).

(** ** evolveNode *)

Inductive Error := TypeError.

Inductive Completion (A : Type) :=
| Return (a : A)
| Throw (e : Error).
Arguments Return {A} a.
Arguments Throw {A} e.

Record Ctx := mkCtx {
  neighbors : list Node;
  regionObj : option Region;
  contributions : list R;
  allNodes : gmap string Node;
  spatialNeighbors : option (list Node) }.

(** [{...node}]: the own properties are copied, the prototype is not; the
    arrays behind [incubationHistory] and [history] are shared with [node]. *)
Definition spread (node : Node) : Node :=
  {| proto := ObjectProto;
     nid := nid node; type := type node; angles := angles node; sides := sides node;
     hue := hue node; rotation := rotation node; coherence := coherence node;
     entropy := entropy node; sandbox := sandbox node;
     stagnation := stagnation node; learningRate := learningRate node;
     growthPotential := growthPotential node;
     pos := pos node; vel := vel node; acc := acc node;
     mass := mass node; range := range node; fov := fov node;
     incubating := incubating node; incubationHistory := incubationHistory node;
     incubationScore := incubationScore node;
     children := children node; observer := observer node; region := region node;
     awareness := awareness node; history := history node |}.

(** *** velocity & stagnation *)

(** The state vector [[hue, rotation, ...angles, pos.x, pos.y]].  No field of
    a node is ever null or undefined, so the [??] fallbacks of [statePrev]
    never apply. *)
Definition stateVec (n : Node) : list R :=
  [hue n; rotation n] ++ angles n ++ [vx (pos n); vy (pos n)].

Definition velocityOf (node : Node) (s : Store) : R :=
  let n := spread node in
  let prev := if bool_decide (1 < length (tokArrays s !!! history n))%nat then node else n in
  let stateNow := stateVec n in
  let statePrev := stateVec prev in
  hypot (vecDiff stateNow statePrev).

Definition stagnationStep (stag v : R) : R :=
  clamp (stag + (if ltb v 0.001 then 0.05 else -0.04)) 0 1.

Definition learningRateOf (v : R) (contributions : list R) : R :=
  v * (if bool_decide (length contributions <> 0%nat) then avg contributions / 10 else 0.3).

(** *** true entropy, growth potential *)

Definition trueEntropy (coh stag lr : R) : R :=
  clamp ((1 - coh / 100) * (1 + stag * 2) * (1 - lr)) 0.1 1000.

Definition growthPotentialOf (ent lr stag : R) : R := ent * lr / (stag + 0.1).

(** *** geometry alignment *)

Definition alignRotation (nbrs : list Node) (rot : R) : R :=
  if bool_decide (length nbrs <> 0%nat)
  then let avgRot := avg (map rotation nbrs) in rot + 0.04 * (avgRot - rot)
  else rot.

(** *** hue band: the band's centre and half width, the new hue, the store *)

Definition hueBandStep (ro : option Region) (nbrs : list Node) (rot coh h : R) (s : Store)
  : (R * R) * R * Store :=
  match ro with
  | Some r =>
      let thetaVec := map rotation nbrs ++ [rot] in
      let rc := avg (map coherence nbrs ++ [coh]) in
      let b := allowedHueBand r thetaVec rc s in
      let band := fst b in
      let diff := jsmod (center band - h + 1.5) 1 - 0.5 in
      ((center band, halfWidth band), jsmod (h + 0.018 * diff + 1) 1, snd b)
  | None => ((h, 0.5), h, s)
  end.

(** *** physics: neighbour attraction and repulsion, region field *)

Definition spatialNbrOf (ctx : Ctx) (p : Vec3) (rng : R) : list Node :=
  match spatialNeighbors ctx with
  | Some l => l
  | None => filter (fun x => vlen (vsub p (pos x)) < rng) (neighbors ctx)
  end.

Definition repel (p : Vec3) (force : Vec3) (o : Node) : Vec3 :=
  let dvec := vsub p (pos o) in
  let d := vlen dvec in
  if ltb d 6 then vadd force (vscale (vnorm dvec) (0.02 * (6 - d))) else force.

Definition neighborForce (spatialNbr : list Node) (p : Vec3) (coh : R) (force : Vec3) : Vec3 :=
  if bool_decide (length spatialNbr <> 0%nat)
  then
    let centroid := foldl (fun a x => vadd a (pos x)) vzero spatialNbr in
    let avgC := vscale centroid (1 / INR (length spatialNbr)) in
    let force1 := vadd force (vscale (vnorm (vsub avgC p)) (0.002 * (coh / 100))) in
    foldl (repel p) force1 spatialNbr
  else force.

Definition fieldForce (ro : option Region) (p : Vec3) (force : Vec3) : Vec3 :=
  match ro with
  | Some r => let fieldVec := computeField r p in vadd force (vscale fieldVec 1)
  | None => force
  end.

(** *** horizon pull from the parent region: [horizonTheta], [horizonHue],
    the store *)

(** The guard [n.coherence>75 && n.growthPotential>1.2 && regionObj?.parent]. *)
Definition horizonGuard (coh gp : R) (ro : option Region) : bool :=
  gtb coh 75 && gtb gp 1.2 && bool_decide (is_Some (ro ≫= parent)).

Definition horizonPull (coh gp rot h : R) (ro : option Region) (s : Store)
  : R * R * Store :=
  if horizonGuard coh gp ro
  then match ro ≫= parent with
       | Some ghost =>
           let gb := allowedHueBand ghost [] coh s in
           let gband := fst gb in
           let s' := snd gb in
           (0.008 * (meanTheta s' ghost - rot), 0.006 * (center gband - h), s')
       | None => (0, 0, s)
       end
  else (0, 0, s).

(** The breakthrough branch takes one draw when it fires. *)
Definition breakthroughGuard (coh stag : R) : bool := gtb coh 92 && gtb stag 0.8.

Definition breakthrough (coh stag horizonTheta ent : R) (g : Rng) : R * R * Rng :=
  if breakthroughGuard coh stag
  then (horizonTheta + (draw g - 0.5) * 0.2, ent + 0.1, rest g)
  else (horizonTheta, ent, g).

(** *** motion-coupled jitter, integration, world bounds *)

Definition jitterForce (coh : R) (force : Vec3) (g : Rng) : Vec3 * Rng :=
  let jitter := 1 + (1 - coh / 100) * 1.5 in
  ({| vx := vx force + (draw g - 0.5) * 0.0005 * jitter;
      vy := vy force + (draw (rest g) - 0.5) * 0.0005 * jitter;
      vz := vz force |},
   rest (rest g)).

Definition worldBounds (p : Vec3) : Vec3 :=
  if gtb (vlen p) 500 then vscale (vnorm p) 475 else p.

(** *** observer gaze with FOV *)

Definition gazeOf (all : gmap string Node) (p : Vec3) (gaze : R) (oid : string) : R :=
  match all !! oid with
  | None => gaze
  | Some obs =>
      if leb (coherence obs) 80 then gaze
      else
        let vec := vsub p (pos obs) in
        let dist := vlen vec in
        if gtb dist (range obs) then gaze
        else
          let dir := vnorm vec in
          let fwd := {| vx := cos (rotation obs); vy := sin (rotation obs); vz := 0 |} in
          let angle := acos (Rmax (-1) (Rmin 1 (vx fwd * vx dir + vy fwd * vy dir))) in
          if leb angle (fov obs / 2)
          then let prox := 1 - clamp (dist / range obs) 0 1 in
               gaze + (coherence obs / 100) * prox
          else gaze
  end.

Definition observerGaze (ro : option Region) (all : gmap string Node) (p : Vec3) : R :=
  match ro with
  | Some r => foldl (gazeOf all p) 0 (observers r)
  | None => 0
  end.

(** *** coherence & sandbox *)

Definition coherenceStep (contributions : list R) (ent gp : R) : R :=
  clamp (10 * sum contributions / (ent + 1) * (1 + 0.01 * gp)) 0 100.

Definition sandboxStep (coh sb : R) : R :=
  if gtb coh 80 then Rmin 10 (sb * 1.006) else Rmax 0.3 (sb * 0.994).

(** *** incubation (metric-driven) *)

Definition healthOf (coh ent stag : R) : R :=
  clamp ((coh / 100) * (1 - ent / 10) * (1 - stag)) 0 1.

(** [a.push(v); if (a.length > 40) a.shift();] on the array itself. *)
Definition pushShift (a : list R) (v : R) : list R :=
  let a1 := a ++ [v] in
  if bool_decide (40 < length a1)%nat then tail a1 else a1.

Definition incubatingStep (inc : bool) (score gp : R) : bool :=
  if inc && gtb score 0.85 && gtb gp 1.0 then false else inc.

(** *** the body of [evolveNode] up to the checkpoint draw

    Every [n.f = e] of the source is a fresh binding here; the record [n] is
    assembled once all fields have their final value. *)
Definition evolveBody (node : Node) (ctx : Ctx) (s : Store) (g : Rng)
  : Node * Store * Rng :=
  let n := spread node in
  (* velocity & stagnation *)
  let velocity := velocityOf node s in
  let stagnation1 := stagnationStep (stagnation n) velocity in
  let learningRate1 := learningRateOf velocity (contributions ctx) in
  (* true entropy *)
  let entropy1 := trueEntropy (coherence n) stagnation1 learningRate1 in
  (* growth potential *)
  let growthPotential1 := growthPotentialOf entropy1 learningRate1 stagnation1 in
  (* geometry alignment *)
  let rotation1 := alignRotation (neighbors ctx) (rotation n) in
  (* hue band *)
  let hb := hueBandStep (regionObj ctx) (neighbors ctx) rotation1 (coherence n) (hue n) s in
  let band := fst (fst hb) in
  let hue1 := snd (fst hb) in
  let s1 := snd hb in
  (* physics *)
  let spatialNbr := spatialNbrOf ctx (pos n) (range n) in
  let force1 := neighborForce spatialNbr (pos n) (coherence n) vzero in
  let force2 := fieldForce (regionObj ctx) (pos n) force1 in
  (* horizon pull from parent region *)
  let hp := horizonPull (coherence n) growthPotential1 rotation1 hue1 (regionObj ctx) s1 in
  let s2 := snd hp in
  let bt := breakthrough (coherence n) stagnation1 (fst (fst hp)) entropy1 g in
  let horizonTheta := fst (fst bt) in
  let horizonHue := snd (fst hp) in
  let entropy2 := snd (fst bt) in
  let rotation2 := rotation1 + horizonTheta in
  let hue2 := jsmod (hue1 + horizonHue + 1) 1 in
  (* motion-coupled jitter *)
  let jf := jitterForce (coherence n) force2 (snd bt) in
  (* integrate *)
  let acc1 := vscale (fst jf) (1 / mass n) in
  let vel1 := vadd (vscale (vel n) 0.98) acc1 in
  let pos1 := vadd (pos n) vel1 in
  (* world bounds *)
  let pos2 := worldBounds pos1 in
  (* observer gaze with FOV *)
  let gaze := observerGaze (regionObj ctx) (allNodes ctx) pos2 in
  (* coherence & sandbox *)
  let coherence1 := coherenceStep (contributions ctx) entropy2 growthPotential1 in
  let sandbox1 := sandboxStep coherence1 (sandbox n) in
  let observer1 := gtb coherence1 85 && bool_decide (3 <= length (children n))%nat in
  (* incubation *)
  let health := healthOf coherence1 entropy2 stagnation1 in
  let hist := pushShift (numArrays s2 !!! incubationHistory n) health in
  let s3 := setNumArray (incubationHistory n) hist s2 in
  let incubationScore1 := avg hist in
  let incubating1 := incubatingStep (incubating n) incubationScore1 growthPotential1 in
  let sandbox2 := if incubating1 then Rmin sandbox1 1.2 else sandbox1 in
  (* awareness *)
  let awareness1 :=
    {| velocity := velocity;
       alignmentScore := coherence1 / 100;
       hueConvergence :=
         if gtb (snd band) 0 then 1 - Rabs (hue2 - fst band) / snd band else 0;
       gazeIntensity := gaze;
       isHappyChallenged :=
         gtb coherence1 65 && gtb growthPotential1 1.0 && ltb stagnation1 0.6
         && (truthy horizonTheta || gtb coherence1 80) |} in
  ({| proto := ObjectProto;
      nid := nid n; type := type n; angles := angles n; sides := sides n;
      hue := hue2; rotation := rotation2; coherence := coherence1;
      entropy := entropy2; sandbox := sandbox2;
      stagnation := stagnation1; learningRate := learningRate1;
      growthPotential := growthPotential1;
      pos := pos2; vel := vel1; acc := acc1;
      mass := mass n; range := range n; fov := fov n;
      incubating := incubating1; incubationHistory := incubationHistory n;
      incubationScore := incubationScore1;
      children := children n; observer := observer1; region := region n;
      awareness := awareness1; history := history n |},
   s3, snd jf).

(** [evolveNode(node, ctx)] at clock reading [now].  The last statement draws
    once more and, below 0.02, calls [n.snapshot()]: a call of an undefined
    property throws a [TypeError] before anything is pushed. *)
Definition evolveNode (node : Node) (ctx : Ctx) (now : Z) (s : Store) (g : Rng)
  : Completion Node * Store * Rng :=
  let r := evolveBody node ctx s g in
  let n := fst (fst r) in
  let s' := snd (fst r) in
  let g' := snd r in
  if ltb (draw g') 0.02
  then match lookupSnapshot n with
       | Some f => (Return n, f n now s', rest g')
       | None => (Throw TypeError, s', rest g')
       end
  else (Return n, s', rest g').


(** The object [n] as it stands when [evolveNode] reaches its last
    statement. *)
Definition evolved (node : Node) (ctx : Ctx) (s : Store) (g : Rng) : Node :=
  fst (fst (evolveBody node ctx s g)).

(** A source whose every draw is [c]. *)
Definition constRng (c : R) : Rng := fun _ => c.

(** ** A node followed over several steps

    The driver replaces each node by [evolveNode(n, ctx)] once per step; an
    exception raised in a step ends the run. *)
Fixpoint evolveSteps (cs : list (Ctx * Z)) (node : Node) (s : Store) (g : Rng)
  : Completion Node * Store * Rng :=
  match cs with
  | [] => (Return node, s, g)
  | c :: cs' =>
      let r := evolveNode node (fst c) (snd c) s g in
      match fst (fst r) with
      | Return n' => evolveSteps cs' n' (snd (fst r)) (snd r)
      | Throw e => (Throw e, snd (fst r), snd r)
      end
  end.

(** ** Sample objects

    The regions of the demo (the root's [kappa] given explicitly), and nodes
    built by the constructor with every random default overridden. *)

Definition emptyStore : Store := mkStore ∅ ∅ ∅.

Definition rootRegion : Region :=
  mkRegion "root" None 0.1 0 [] 0 vzero 0.008 1%positive.

Definition region1 : Region :=
  mkRegion "1" (Some rootRegion) 0.12 0 [] 1 (mkVec3 80 0 0) 0.005 2%positive.

Definition fixedOpts (rot sb : R) (inc : bool) : NodeOpts :=
  {| o_hue := Some 0.5; o_rotation := Some rot; o_coherence := None;
     o_entropy := None; o_sandbox := Some sb;
     o_pos := Some vzero; o_vel := None; o_acc := None;
     o_mass := None; o_range := None; o_fov := None;
     o_incubating := Some inc; o_region := None |}.

(** [new Node("n0", "triangle", [60,60,60], {hue:0.5, rotation:0, sandbox:1,
    pos:{x:0,y:0,z:0}, incubating:true})] in the empty store. *)
Definition built0 : Node * Store * Rng :=
  newNode "n0" "triangle" [60; 60; 60] (fixedOpts 0 1 true) 0 emptyStore (constRng 0.5).
Definition node0 : Node := fst (fst built0).
Definition store0 : Store := snd (fst built0).

(** A second node, with [rotation:1], built after [node0]. *)
Definition built1 : Node * Store * Rng :=
  newNode "n1" "triangle" [60; 60; 60] (fixedOpts 1 1 true) 0 store0 (constRng 0.5).
Definition node1 : Node := fst (fst built1).
Definition store1 : Store := snd (fst built1).

(** A node built with [sandbox:20, incubating:false]. *)
Definition builtWide : Node * Store * Rng :=
  newNode "w" "triangle" [60; 60; 60] (fixedOpts 0 20 false) 0 emptyStore (constRng 0.5).
Definition nodeWide : Node := fst (fst builtWide).
Definition storeWide : Store := snd (fst builtWide).

(** [ctx = {}], and a context with [node1] as the only neighbour. *)
Definition ctxEmpty : Ctx := mkCtx [] None [] ∅ None.
Definition ctxNbr : Ctx := mkCtx [node1] None [] ∅ None.

(** ** The ancestor chain and its weights *)

(** The regions [effectiveKappa] visits, from [this] to the root. *)
Fixpoint chain (this : Region) : list Region :=
  match this with
  | mkRegion _ None _ _ _ _ _ _ _ => [this]
  | mkRegion _ (Some p) _ _ _ _ _ _ _ => this :: chain p
  end.

(** The decay [0.88^max(0, g - generation)]. *)
Definition decay (g : Z) (a : Region) : R := 0.88 ^ Z.to_nat (Z.max 0 (g - generation a)).

(** The weight the loop gives a region of the chain: the decay when the
    region has a parent, 1 when it is the root. *)
Definition loopWeight (g : Z) (a : Region) : R :=
  match parent a with Some _ => decay g a | None => 1 end.

(** The weighted mean in the words of the specification: weight 1 for the
    region itself, the decay for every ancestor above it, and the region's
    own [kappa] when the total weight is zero. *)
Definition spec_effectiveKappa (this : Region) (g : Z) : R :=
  let ancestors := tail (chain this) in
  let tot := 1 * kappa this + sum (map (fun a => decay g a * kappa a) ancestors) in
  let wsum := 1 + sum (map (decay g) ancestors) in
  if truthy wsum then tot / wsum else kappa this.

(** ** Circular mean *)

(** A circular mean of a list of angles, in the usual sense: a direction
    [mu] along which the resultant of the samples' unit vectors points. *)
Definition isCircularMean (samples : list R) (mu : R) : Prop :=
  sum (map (fun t => sin (t - mu)) samples) = 0
  /\ 0 < sum (map (fun t => cos (t - mu)) samples).


(** ** The field scenario *)

(** A region without a parent, with [fieldCenter = (80,0,0)] and
    [fieldStrength = 0.008]. *)
Definition fieldRegion : Region :=
  mkRegion "f" None 0.1 0 [] 0 (mkVec3 80 0 0) 0.008 3%positive.

(** The factor [fieldStrength/(1+0.01*d*d)] of [computeField], with
    [d = d0 + 1e-6] for a point at distance [d0] from the centre. *)
Definition falloff (fs d0 : R) : R := fs / (1 + 0.01 * (d0 + 1e-6) * (d0 + 1e-6)).

(** ** The invariants of a node *)

(** The bounds every node is meant to satisfy at the end of a step. *)
Definition stepInvariant (n : Node) (s : Store) : Prop :=
  0 <= hue n < 1
  /\ 0 <= coherence n <= 100
  /\ 0 <= stagnation n <= 1
  /\ 0.1 <= entropy n <= 1000
  /\ 0.3 <= sandbox n <= 10
  /\ vlen (pos n) <= 500
  /\ (length (numArrays s !!! incubationHistory n) <= 40)%nat.

(** What a step needs of its input to establish them. *)
Definition admissible (n : Node) (s : Store) : Prop :=
  0 <= hue n < 1
  /\ 0.3 <= sandbox n <= 10
  /\ mass n <> 0
  /\ (length (numArrays s !!! incubationHistory n) <= 40)%nat.

(** ** The horizon block inside a step *)


(** ** Further definitions *)

(** [nearlyEqual(a, b, e)], and the call with the default [e = 1e-6]. *)
Definition nearlyEqual (a b e : R) : bool := bool_decide (Rabs (a - b) < e).
Definition nearlyEqual0 (a b : R) : bool := nearlyEqual a b 1e-6.

(** The dot product, used to state how vectors compare. *)
Definition vdot (a b : Vec3) : R := vx a * vx b + vy a * vy b + vz a * vz b.

(** A node built with [sandbox:2, incubating:false]. *)
Definition builtFree : Node * Store * Rng :=
  newNode "f" "triangle" [60; 60; 60] (fixedOpts 0 2 false) 0 emptyStore (constRng 0.5).
Definition nodeFree : Node := fst (fst builtFree).
Definition storeFree : Store := snd (fst builtFree).

(** An observer id resolves to nothing, or to a node that the gaze loop
    skips: coherence at most 80, or the watched position out of range. *)
Definition skipped (all : gmap string Node) (p : Vec3) (oid : string) : Prop :=
  match all !! oid with
  | None => True
  | Some obs => coherence obs <= 80 \/ range obs < vlen (vsub p (pos obs))
  end.

(** * Properties *)

(** ** Comparisons and clamping *)

Lemma ltb_true a b : a < b -> ltb a b = true.
Proof. intros H. unfold ltb. by apply bool_decide_eq_true_2. Qed.

Lemma ltb_false a b : b <= a -> ltb a b = false.
Proof. intros H. unfold ltb. apply bool_decide_eq_false_2. lra. Qed.

Lemma gtb_true a b : b < a -> gtb a b = true.
Proof. intros H. unfold gtb. by apply bool_decide_eq_true_2. Qed.

Lemma gtb_false a b : a <= b -> gtb a b = false.
Proof. intros H. unfold gtb. apply bool_decide_eq_false_2. lra. Qed.

Lemma gtb_spec a b : gtb a b = true <-> b < a.
Proof. unfold gtb. apply bool_decide_eq_true. Qed.

Lemma truthy_false a : truthy a = false <-> a = 0.
Proof.
  unfold truthy. rewrite bool_decide_eq_false. split; [|intros -> H; by apply H].
  intros H. destruct (Req_dec_T a 0); [done | contradiction].
Qed.

Lemma truthy_true a : a <> 0 -> truthy a = true.
Proof. intros H. unfold truthy. by apply bool_decide_eq_true_2. Qed.

Lemma orElse_0 a : orElse a 0 = a.
Proof.
  unfold orElse. destruct (truthy a) eqn:E; [done|].
  apply truthy_false in E. by subst.
Qed.

Lemma clamp_bounds v a b : a <= b -> a <= clamp v a b <= b.
Proof. intros H. unfold clamp, Rmax, Rmin. repeat destruct Rle_dec; lra. Qed.

Lemma clamp_id v a b : a <= v <= b -> clamp v a b = v.
Proof. intros H. unfold clamp, Rmax, Rmin. repeat destruct Rle_dec; lra. Qed.

Lemma clamp_low v a b : a <= b -> v <= a -> clamp v a b = a.
Proof. intros H1 H2. unfold clamp, Rmax, Rmin. repeat destruct Rle_dec; lra. Qed.

Lemma clamp_high v a b : a <= b -> b <= v -> clamp v a b = b.
Proof. intros H1 H2. unfold clamp, Rmax, Rmin. repeat destruct Rle_dec; lra. Qed.

(** ** The remainder operator *)

Lemma div_nonneg a b : 0 <= a -> 0 < b -> 0 <= a / b.
Proof.
  intros Ha Hb. unfold Rdiv. apply Rmult_le_pos; [done|].
  left. by apply Rinv_0_lt_compat.
Qed.

Lemma div_lt_1 a b : a < b -> 0 < b -> a / b < 1.
Proof.
  intros Ha Hb. apply (Rmult_lt_reg_r b); [done|].
  replace (a / b * b) with a by (field; lra). lra.
Qed.

Lemma jsmod_nonneg a b : 0 < b -> 0 <= a -> 0 <= jsmod a b < b.
Proof.
  intros Hb Ha. unfold jsmod, Rtrunc.
  assert (Hq : 0 <= a / b) by (apply div_nonneg; lra).
  rewrite bool_decide_eq_false_2 by lra.
  pose proof (Zfloor_bound (a / b)) as [H1 H2].
  assert (Ha' : a = a / b * b) by (field; lra).
  set (q := a / b) in *. set (k := IZR (Zfloor q)) in *. nra.
Qed.

Lemma jsmod_neg a b : 0 < b -> a < 0 -> - b < jsmod a b <= 0.
Proof.
  intros Hb Ha. unfold jsmod, Rtrunc.
  assert (Hq : a / b < 0).
  { unfold Rdiv. apply Rmult_neg_pos; [lra|]. by apply Rinv_0_lt_compat. }
  rewrite bool_decide_eq_true_2 by lra.
  pose proof (Zceil_bound (a / b)) as [H1 H2].
  assert (Ha' : a = a / b * b) by (field; lra).
  set (q := a / b) in *. set (k := IZR (Zceil q)) in *. nra.
Qed.

Lemma jsmod_small a b : 0 <= a < b -> jsmod a b = a.
Proof.
  intros [Ha Hb]. unfold jsmod, Rtrunc.
  assert (Hq : 0 <= a / b < 1).
  { split; [apply div_nonneg; lra | apply div_lt_1; lra]. }
  rewrite bool_decide_eq_false_2 by lra.
  rewrite (Zfloor_eq 0) by (simpl; lra). simpl. lra.
Qed.

Lemma jsmod_zero b : jsmod 0 b = 0.
Proof.
  unfold jsmod, Rtrunc. rewrite bool_decide_eq_false_2 by (unfold Rdiv; lra).
  replace (0 / b) with 0 by (unfold Rdiv; lra).
  rewrite (Zfloor_eq 0) by (simpl; lra). simpl. lra.
Qed.

Lemma hueCenter_range theta : 0 <= hueCenter theta < 1.
Proof.
  unfold hueCenter. pose proof PI_RGT_0 as Hpi.
  assert (H2 : 0 < 2 * PI) by lra.
  assert (H : 0 <= jsmod theta (2 * PI) + 2 * PI).
  { destruct (Rlt_dec theta 0) as [Hn|Hn].
    - pose proof (jsmod_neg theta _ H2 Hn). lra.
    - pose proof (jsmod_nonneg theta _ H2 ltac:(lra)). lra. }
  pose proof (jsmod_nonneg _ _ H2 H) as [Hlo Hhi].
  split.
  - apply div_nonneg; lra.
  - apply div_lt_1; lra.
Qed.

Lemma hueCenter_zero : hueCenter 0 = 0.
Proof.
  unfold hueCenter. pose proof PI_RGT_0 as Hpi.
  rewrite jsmod_zero. rewrite Rplus_0_l.
  unfold jsmod, Rtrunc.
  replace (2 * PI / (2 * PI)) with 1 by (field; lra).
  rewrite bool_decide_eq_false_2 by lra.
  rewrite (Zfloor_eq 1) by (simpl; lra). simpl. field. lra.
Qed.

(** ** Sums, means and [Math.hypot] *)

Lemma sum_nil : sum [] = 0.
Proof. reflexivity. Qed.

Lemma avg_nil : avg [] = 0.
Proof. reflexivity. Qed.

Lemma avg_singleton v : avg [v] = v.
Proof.
  unfold avg. rewrite bool_decide_eq_true_2 by (simpl; lia).
  unfold sum. simpl. field.
Qed.

Lemma hypot_zeros k : hypot (replicate k 0) = 0.
Proof.
  unfold hypot. replace (foldr _ 0 (replicate k 0)) with 0; [apply sqrt_0|].
  induction k as [|k IH]; simpl; [done|]. rewrite <- IH. lra.
Qed.

Lemma vecDiff_self l : vecDiff l l = replicate (length l) 0.
Proof.
  unfold vecDiff. apply list_eq. intros i.
  rewrite list_lookup_imap.
  destruct (l !! i) as [v|] eqn:E; simpl.
  - rewrite lookup_replicate_2 by (by eapply lookup_lt_Some).
    f_equal. lra.
  - symmetry. apply lookup_replicate_None. by apply lookup_ge_None.
Qed.

Lemma hypot_nonneg l : 0 <= hypot l.
Proof. apply sqrt_pos. Qed.

Lemma sumsq_nonneg l : 0 <= foldr (fun v s => v * v + s) 0 l.
Proof. induction l as [|v l IH]; simpl; [lra | nra]. Qed.

(** ** The fields of the evolved node *)

Lemma velocityOf_zero node s : velocityOf node s = 0.
Proof.
  unfold velocityOf.
  assert (E : forall prev, stateVec prev = stateVec node ->
                hypot (vecDiff (stateVec (spread node)) (stateVec prev)) = 0).
  { intros prev ->. change (stateVec (spread node)) with (stateVec node).
    rewrite vecDiff_self. apply hypot_zeros. }
  case_bool_decide; by apply E.
Qed.

Lemma learningRateOf_zero c : learningRateOf 0 c = 0.
Proof. unfold learningRateOf. lra. Qed.

Lemma learningRateOf_zero' v c : v = 0 -> learningRateOf v c = 0.
Proof. intros ->. apply learningRateOf_zero. Qed.

Lemma growthPotentialOf_zero e st : growthPotentialOf e 0 st = 0.
Proof. unfold growthPotentialOf, Rdiv. ring. Qed.

Lemma evolved_velocity node ctx s g :
  velocity (awareness (evolved node ctx s g)) = velocityOf node s.
Proof. reflexivity. Qed.

Lemma evolved_stagnation node ctx s g :
  stagnation (evolved node ctx s g) = stagnationStep (stagnation node) (velocityOf node s).
Proof. reflexivity. Qed.

Lemma evolved_learningRate node ctx s g :
  learningRate (evolved node ctx s g) = 0.
Proof.
  change (learningRateOf (velocityOf node s) (contributions ctx) = 0).
  rewrite velocityOf_zero. apply learningRateOf_zero.
Qed.

Lemma evolved_growthPotential node ctx s g :
  growthPotential (evolved node ctx s g) = 0.
Proof.
  change (growthPotentialOf
            (trueEntropy (coherence node)
               (stagnationStep (stagnation node) (velocityOf node s))
               (learningRate (evolved node ctx s g)))
            (learningRate (evolved node ctx s g))
            (stagnationStep (stagnation node) (velocityOf node s)) = 0).
  rewrite evolved_learningRate. apply growthPotentialOf_zero.
Qed.

Lemma horizonPull_low coh gp rot h ro s :
  gp <= 1.2 -> horizonPull coh gp rot h ro s = (0, 0, s).
Proof.
  intros H. unfold horizonPull, horizonGuard. rewrite (gtb_false gp) by done.
  by rewrite andb_false_r.
Qed.

Lemma horizonGuard_low coh gp ro : gp <= 1.2 -> horizonGuard coh gp ro = false.
Proof.
  intros H. unfold horizonGuard. rewrite (gtb_false gp) by done.
  by rewrite andb_false_r.
Qed.

Lemma incubatingStep_low inc score gp : gp <= 1.0 -> incubatingStep inc score gp = inc.
Proof.
  intros H. unfold incubatingStep. rewrite (gtb_false gp) by done.
  by rewrite andb_false_r.
Qed.

Lemma incubatingStep_false score gp : incubatingStep false score gp = false.
Proof. reflexivity. Qed.

Lemma evolved_incubating node ctx s g :
  incubating (evolved node ctx s g)
  = incubatingStep (incubating node) (incubationScore (evolved node ctx s g))
      (growthPotential (evolved node ctx s g)).
Proof. reflexivity. Qed.

Lemma evolved_proto node ctx s g : proto (evolved node ctx s g) = ObjectProto.
Proof. reflexivity. Qed.

(** ** How [evolveNode] completes *)

Lemma evolveNode_returns node ctx now s g :
  0.02 <= draw (snd (evolveBody node ctx s g)) ->
  evolveNode node ctx now s g
  = (Return (evolved node ctx s g), snd (fst (evolveBody node ctx s g)),
     rest (snd (evolveBody node ctx s g))).
Proof. intros H. unfold evolveNode. by rewrite ltb_false. Qed.

Lemma evolveNode_throws node ctx now s g :
  draw (snd (evolveBody node ctx s g)) < 0.02 ->
  evolveNode node ctx now s g
  = (Throw TypeError, snd (fst (evolveBody node ctx s g)),
     rest (snd (evolveBody node ctx s g))).
Proof. intros H. unfold evolveNode. by rewrite ltb_true. Qed.

Lemma evolveNode_Return node ctx now s g n' :
  fst (fst (evolveNode node ctx now s g)) = Return n' -> n' = evolved node ctx s g.
Proof.
  destruct (Rlt_dec (draw (snd (evolveBody node ctx s g))) 0.02) as [H|H].
  - rewrite evolveNode_throws by done. discriminate.
  - rewrite evolveNode_returns by lra. simpl. congruence.
Qed.

Lemma evolveNode_store node ctx now s g :
  snd (fst (evolveNode node ctx now s g)) = snd (fst (evolveBody node ctx s g)).
Proof.
  destruct (Rlt_dec (draw (snd (evolveBody node ctx s g))) 0.02) as [H|H].
  - by rewrite evolveNode_throws.
  - by rewrite evolveNode_returns by lra.
Qed.

Lemma body_rng_const c node ctx s g :
  (forall k, g k = c) -> forall k, snd (evolveBody node ctx s g) k = c.
Proof.
  intros Hg k. unfold evolveBody, jitterForce, breakthrough. cbn [snd fst].
  destruct (breakthroughGuard _ _); cbn [snd fst]; unfold rest; apply Hg.
Qed.

Lemma draw_body_const node ctx s c :
  draw (snd (evolveBody node ctx s (constRng c))) = c.
Proof. by apply body_rng_const. Qed.

Lemma evolveNode_rng node ctx now s g :
  snd (evolveNode node ctx now s g) = rest (snd (evolveBody node ctx s g)).
Proof.
  destruct (Rlt_dec (draw (snd (evolveBody node ctx s g))) 0.02) as [H|H].
  - by rewrite evolveNode_throws.
  - by rewrite evolveNode_returns by lra.
Qed.

Lemma evolveNode_rng_const c node ctx now s g :
  (forall k, g k = c) -> forall k, snd (evolveNode node ctx now s g) k = c.
Proof.
  intros Hg k. rewrite evolveNode_rng. unfold rest. by apply body_rng_const.
Qed.

Lemma evolveNode_returns_const c node ctx now s g :
  (forall k, g k = c) -> 0.02 <= c ->
  fst (fst (evolveNode node ctx now s g)) = Return (evolved node ctx s g).
Proof.
  intros Hg Hc. rewrite evolveNode_returns; [done|].
  unfold draw. by rewrite (body_rng_const c).
Qed.

(** ** The store after a step *)

Lemma hueBandStep_numArrays ro nbrs rot coh h s :
  numArrays (snd (hueBandStep ro nbrs rot coh h s)) = numArrays s.
Proof. by destruct ro. Qed.

Lemma hueBandStep_tokArrays ro nbrs rot coh h s :
  tokArrays (snd (hueBandStep ro nbrs rot coh h s)) = tokArrays s.
Proof. by destruct ro. Qed.

Lemma horizonPull_numArrays coh gp rot h ro s :
  numArrays (snd (horizonPull coh gp rot h ro s)) = numArrays s.
Proof.
  unfold horizonPull. destruct (horizonGuard coh gp ro); [|done].
  by destruct (ro ≫= parent).
Qed.

Lemma horizonPull_tokArrays coh gp rot h ro s :
  tokArrays (snd (horizonPull coh gp rot h ro s)) = tokArrays s.
Proof.
  unfold horizonPull. destruct (horizonGuard coh gp ro); [|done].
  by destruct (ro ≫= parent).
Qed.

Lemma body_incubationHistory node ctx s g :
  numArrays (snd (fst (evolveBody node ctx s g))) !!! incubationHistory node
  = pushShift (numArrays s !!! incubationHistory node)
      (healthOf (coherence (evolved node ctx s g)) (entropy (evolved node ctx s g))
         (stagnation (evolved node ctx s g))).
Proof.
  unfold evolveBody at 1. cbn [snd fst setNumArray numArrays].
  rewrite lookup_total_insert_eq.
  change (incubationHistory (spread node)) with (incubationHistory node).
  rewrite horizonPull_numArrays, hueBandStep_numArrays.
  reflexivity.
Qed.

Lemma body_history node ctx s g :
  tokArrays (snd (fst (evolveBody node ctx s g))) = tokArrays s.
Proof.
  unfold evolveBody. cbn [snd fst setNumArray tokArrays].
  by rewrite horizonPull_tokArrays, hueBandStep_tokArrays.
Qed.

Lemma pushShift_length a v :
  length (pushShift a v) = if bool_decide (40 <= length a)%nat then length a else S (length a).
Proof.
  unfold pushShift.
  assert (E : length (a ++ [v]) = S (length a)) by (rewrite length_app; simpl; lia).
  rewrite E. repeat case_bool_decide; try lia.
  destruct a; simpl in *; [lia|]. rewrite length_app. simpl. lia.
Qed.

(** ** The checkpoint branch *)

(** C1 (the code departs from the claim).  Whenever the last draw of a step
    is below 0.02, [evolveNode] ends in a [TypeError]: the object it works on
    is a spread copy, and [snapshot] lives on the prototype the copy does not
    have.  No checkpoint is emitted. *)
Theorem evolveNode_checkpoint_throws node ctx now s g :
  draw (snd (evolveBody node ctx s g)) < 0.02 ->
  fst (fst (evolveNode node ctx now s g)) = Throw TypeError
  /\ tokArrays (snd (fst (evolveNode node ctx now s g))) = tokArrays s.
Proof.
  intros H. rewrite evolveNode_throws by done. cbn [fst snd].
  split; [done | apply body_history].
Qed.

Lemma evolveNode_checkpoint_throws_witness :
  fst (fst (evolveNode node0 ctxEmpty 1 store0 (constRng 0.01))) = Throw TypeError
  /\ tokArrays (snd (fst (evolveNode node0 ctxEmpty 1 store0 (constRng 0.01))))
     = tokArrays store0.
Proof.
  apply evolveNode_checkpoint_throws. rewrite draw_body_const. lra.
Defined.

(** ** The input node after a step *)

(** C2 (the code departs from the claim).  The copy [n] shares the array
    behind [incubationHistory] with the input node, and the step pushes the
    new health score onto it: after the call the input node's history is one
    element longer (while it held fewer than 40). *)
Theorem evolveNode_grows_input_history node ctx now s g :
  (length (numArrays s !!! incubationHistory node) < 40)%nat ->
  length (numArrays (snd (fst (evolveNode node ctx now s g))) !!! incubationHistory node)
  = S (length (numArrays s !!! incubationHistory node)).
Proof.
  intros H. rewrite evolveNode_store, body_incubationHistory, pushShift_length.
  case_bool_decide; [lia | done].
Qed.

Lemma node0_incubationHistory : numArrays store0 !!! incubationHistory node0 = [].
Proof. reflexivity. Qed.

Lemma evolveNode_grows_input_history_witness :
  length (numArrays (snd (fst (evolveNode node0 ctxEmpty 1 store0 (constRng 0.5))))
            !!! incubationHistory node0) = 1%nat.
Proof.
  rewrite (evolveNode_grows_input_history node0 ctxEmpty 1 store0 (constRng 0.5)).
  - by rewrite node0_incubationHistory.
  - rewrite node0_incubationHistory. simpl. lia.
Defined.

(** ** Velocity, learning rate and growth potential *)

(** C4.  Whatever the node and the context, the node [evolveNode] returns has
    velocity, learning rate and growth potential 0: the state taken as
    previous is the current one.  Neither guard on the growth potential
    holds, so the [incubating] flag is the input's. *)
Theorem evolveNode_growth_always_zero node ctx now s g n' :
  fst (fst (evolveNode node ctx now s g)) = Return n' ->
  velocity (awareness n') = 0
  /\ learningRate n' = 0
  /\ growthPotential n' = 0
  /\ horizonGuard (coherence node) (growthPotential n') (regionObj ctx) = false
  /\ gtb (growthPotential n') 1.0 = false
  /\ incubating n' = incubating node.
Proof.
  intros H. apply evolveNode_Return in H. subst n'.
  rewrite evolved_velocity, velocityOf_zero, evolved_learningRate.
  rewrite evolved_incubating, evolved_growthPotential.
  repeat split.
  - apply horizonGuard_low. lra.
  - apply gtb_false. lra.
  - apply incubatingStep_low. lra.
Qed.

Lemma evolveNode_growth_always_zero_witness :
  velocity (awareness (evolved node0 ctxEmpty store0 (constRng 0.5))) = 0
  /\ learningRate (evolved node0 ctxEmpty store0 (constRng 0.5)) = 0
  /\ growthPotential (evolved node0 ctxEmpty store0 (constRng 0.5)) = 0
  /\ horizonGuard (coherence node0)
       (growthPotential (evolved node0 ctxEmpty store0 (constRng 0.5)))
       (regionObj ctxEmpty) = false
  /\ gtb (growthPotential (evolved node0 ctxEmpty store0 (constRng 0.5))) 1.0 = false
  /\ incubating (evolved node0 ctxEmpty store0 (constRng 0.5)) = incubating node0.
Proof.
  apply (evolveNode_growth_always_zero node0 ctxEmpty 1 store0 (constRng 0.5)).
  apply (evolveNode_returns_const 0.5); [reflexivity | lra].
Defined.

(** ** The incubation flag *)

Lemma evolved_incubating_false node ctx s g :
  incubating node = false -> incubating (evolved node ctx s g) = false.
Proof. intros H. rewrite evolved_incubating, H. apply incubatingStep_false. Qed.

(** C6.  A node whose [incubating] flag is false keeps it false through every
    later step, whatever the contexts, the contributions and the draws. *)
Theorem incubating_stays_false cs node s g n' :
  incubating node = false ->
  fst (fst (evolveSteps cs node s g)) = Return n' ->
  incubating n' = false.
Proof.
  revert node s g. induction cs as [|c cs IH]; intros node s g Hinc Hrun.
  - simpl in Hrun. congruence.
  - cbn [evolveSteps] in Hrun.
    destruct (fst (fst (evolveNode node (fst c) (snd c) s g))) as [n1|e] eqn:E.
    + apply evolveNode_Return in E. subst n1.
      eapply IH; [|exact Hrun]. by apply evolved_incubating_false.
    + discriminate.
Qed.

Lemma evolveSteps_returns_const c cs node s g :
  (forall k, g k = c) -> 0.02 <= c ->
  exists n', fst (fst (evolveSteps cs node s g)) = Return n'.
Proof.
  intros Hg Hc. revert node s g Hg.
  induction cs as [|x cs IH]; intros node s g Hg.
  - by exists node.
  - cbn [evolveSteps]. rewrite (evolveNode_returns_const c) by done.
    apply IH. by apply evolveNode_rng_const.
Qed.

Lemma incubating_stays_false_witness :
  exists n', fst (fst (evolveSteps [(ctxEmpty, 1%Z); (ctxNbr, 2%Z)] nodeWide storeWide
                         (constRng 0.5))) = Return n'
             /\ incubating n' = false.
Proof.
  destruct (evolveSteps_returns_const 0.5 [(ctxEmpty, 1%Z); (ctxNbr, 2%Z)]
              nodeWide storeWide (constRng 0.5)) as [n' Hn'];
    [reflexivity | lra |].
  exists n'. split; [exact Hn'|].
  apply (incubating_stays_false [(ctxEmpty, 1%Z); (ctxNbr, 2%Z)] nodeWide storeWide
           (constRng 0.5) n'); [reflexivity | exact Hn'].
Defined.

(** ** Velocity against the previous state *)

Lemma hypot_ge_elem l i v : l !! i = Some v -> Rabs v <= hypot l.
Proof.
  intros H. unfold hypot. rewrite <- sqrt_Rsqr_abs. apply sqrt_le_1_alt.
  revert i H. induction l as [|w l IH]; intros i H; [done|].
  destruct i as [|i]; simpl in *.
  - injection H as ->. pose proof (sumsq_nonneg l). unfold Rsqr. lra.
  - specialize (IH i H). nra.
Qed.

Lemma vecDiff_lookup a b i v w :
  a !! i = Some v -> b !! i = Some w -> vecDiff a b !! i = Some (v - w).
Proof. intros Ha Hb. unfold vecDiff. by rewrite list_lookup_imap, Ha, Hb. Qed.

Lemma evolved_rotation_calm node ctx s g :
  coherence node <= 92 ->
  rotation (evolved node ctx s g) = alignRotation (neighbors ctx) (rotation node).
Proof.
  intros H. unfold evolved, evolveBody. cbn [fst snd rotation].
  unfold breakthrough, breakthroughGuard.
  change (coherence (spread node)) with (coherence node).
  rewrite (gtb_false (coherence node) 92) by done. cbn [andb fst snd].
  rewrite velocityOf_zero, learningRateOf_zero, growthPotentialOf_zero.
  rewrite horizonPull_low by lra. cbn [fst snd].
  change (rotation (spread node)) with (rotation node). lra.
Qed.

Lemma stagnationStep_still st : stagnationStep st 0 = clamp (st + 0.05) 0 1.
Proof. unfold stagnationStep. by rewrite ltb_true by lra. Qed.

(** C3 (the code departs from the claim).  [node0] turns by 0.04 in a first
    step, so the state it had before lies at distance 0.04 or more from the
    state it has after.  The second step nevertheless computes velocity 0
    and raises the stagnation by 0.05, as for a node that has not moved: the
    state taken as previous is the current one. *)
Theorem velocity_ignores_previous_state :
  let n1 := evolved node0 ctxNbr store1 (constRng 0.5) in
  let s1 := snd (fst (evolveNode node0 ctxNbr 1 store1 (constRng 0.5))) in
  let n2 := evolved n1 ctxNbr s1 (constRng 0.5) in
  fst (fst (evolveNode node0 ctxNbr 1 store1 (constRng 0.5))) = Return n1
  /\ fst (fst (evolveNode n1 ctxNbr 2 s1 (constRng 0.5))) = Return n2
  /\ 0.04 <= hypot (vecDiff (stateVec n1) (stateVec node0))
  /\ velocity (awareness n2) = 0
  /\ stagnation n1 = 0.05
  /\ stagnation n2 = 0.1.
Proof.
  intros n1 s1 n2.
  assert (Hrot : rotation n1 = 0.04).
  { unfold n1. rewrite evolved_rotation_calm.
    - change (alignRotation [node1] 0 = 0.04). unfold alignRotation.
      rewrite bool_decide_eq_true_2 by (simpl; lia).
      change (map rotation [node1]) with [1]. rewrite avg_singleton. lra.
    - change (50 <= 92). lra. }
  assert (Hst1 : stagnation n1 = 0.05).
  { unfold n1. rewrite evolved_stagnation, velocityOf_zero, stagnationStep_still.
    change (stagnation node0) with 0. rewrite clamp_id; lra. }
  repeat split.
  - by apply (evolveNode_returns_const 0.5); [|lra].
  - by apply (evolveNode_returns_const 0.5); [|lra].
  - assert (E : vecDiff (stateVec n1) (stateVec node0) !! 1%nat = Some (0.04 - 0)).
    { apply vecDiff_lookup; [|reflexivity].
      change (Some (rotation n1) = Some 0.04). by rewrite Hrot. }
    apply hypot_ge_elem in E. unfold Rabs in E. destruct Rcase_abs; lra.
  - unfold n2. by rewrite evolved_velocity, velocityOf_zero.
  - exact Hst1.
  - unfold n2. rewrite evolved_stagnation, velocityOf_zero, stagnationStep_still.
    rewrite Hst1. rewrite clamp_id; lra.
Qed.

(** ** Region.effectiveKappa *)

Lemma sum_acc a l : foldl (fun s v => s + v) a l = a + sum l.
Proof.
  unfold sum. revert a. induction l as [|v l IH]; intros a; simpl; [lra|].
  rewrite (IH (a + v)), (IH (0 + v)). lra.
Qed.

Lemma sum_cons v l : sum (v :: l) = v + sum l.
Proof. unfold sum at 1. simpl. rewrite sum_acc. lra. Qed.

Lemma decay_pos g a : 0 < decay g a.
Proof. unfold decay. apply pow_lt. lra. Qed.

Lemma loopWeight_pos g a : 0 < loopWeight g a.
Proof. unfold loopWeight. destruct (parent a); [apply decay_pos | lra]. Qed.

Lemma sum_weights_pos g l : l <> [] -> 0 < sum (map (loopWeight g) l).
Proof.
  induction l as [|a l IH]; [done|]. intros _. simpl. rewrite sum_cons.
  pose proof (loopWeight_pos g a).
  destruct l as [|b l]; [cbn [map]; rewrite sum_nil; lra|].
  assert (0 < sum (map (loopWeight g) (b :: l))) by (by apply IH). lra.
Qed.

Lemma chain_nonempty this : chain this <> [].
Proof. by destruct this as [? [p|] ? ? ? ? ? ? ?]. Qed.

Lemma loopWeight_child g id p k nz obs gen fc fs l :
  loopWeight g (mkRegion id (Some p) k nz obs gen fc fs l)
  = 0.88 ^ Z.to_nat (Z.max 0 (g - gen)).
Proof. reflexivity. Qed.

Lemma loopWeight_root g id k nz obs gen fc fs l :
  loopWeight g (mkRegion id None k nz obs gen fc fs l) = 1.
Proof. reflexivity. Qed.

(** The loop adds, to each accumulator, the sum over the chain. *)
Lemma kappaWalk_sums g : forall cur tot wsum,
  kappaWalk g cur tot wsum
  = (tot + sum (map (fun a => loopWeight g a * kappa a) (chain cur)),
     wsum + sum (map (loopWeight g) (chain cur))).
Proof.
  fix IH 1. intros [id [p|] k nz obs gen fc fs l] tot wsum.
  - cbn [kappaWalk chain map]. rewrite (IH p), !sum_cons, !loopWeight_child.
    cbn [kappa]. f_equal; lra.
  - cbn [kappaWalk chain map]. rewrite !sum_cons, !sum_nil, !loopWeight_root.
    cbn [kappa]. f_equal; lra.
Qed.

(** C7 (as amended).  [effectiveKappa] is the weighted mean of [kappa] over the
    chain from the region to the root, where a region that has a parent, the
    starting region included, weighs [0.88^max(0, g - generation)] and the
    root weighs 1.  The total weight is positive, so the fallback is never
    taken; for a region without a parent the result is its own [kappa]. *)
Theorem effectiveKappa_weighted_mean this g :
  0 < sum (map (loopWeight g) (chain this))
  /\ effectiveKappa this g
     = sum (map (fun a => loopWeight g a * kappa a) (chain this))
       / sum (map (loopWeight g) (chain this))
  /\ (forall id k nz obs gen fc fs l,
        effectiveKappa (mkRegion id None k nz obs gen fc fs l) g = k).
Proof.
  assert (Hpos : forall r, 0 < sum (map (loopWeight g) (chain r))).
  { intros r. apply sum_weights_pos, chain_nonempty. }
  assert (Hmean : forall r, effectiveKappa r g
     = sum (map (fun a => loopWeight g a * kappa a) (chain r))
       / sum (map (loopWeight g) (chain r))).
  { intros r. unfold effectiveKappa. rewrite kappaWalk_sums. cbn [fst snd].
    rewrite !Rplus_0_l. rewrite truthy_true; [done|].
    pose proof (Hpos r). lra. }
  repeat split; [apply Hpos | apply Hmean |].
  intros id k nz obs gen fc fs l. rewrite Hmean.
  cbn [chain map]. rewrite !sum_cons, !sum_nil, !loopWeight_root.
  cbn [kappa]. field.
Qed.

(** C7 (the claim as stated fails).  For the child region of the demo, asked
    at its own generation, the loop gives the root weight 1 and returns 0.11;
    with the root decayed by 0.88, as the specification words it, the mean
    is 0.208/1.88. *)
Lemma effectiveKappa_root_not_decayed :
  effectiveKappa region1 1 = 0.11
  /\ spec_effectiveKappa region1 1 = 0.208 / 1.88
  /\ effectiveKappa region1 1 <> spec_effectiveKappa region1 1.
Proof.
  assert (E1 : effectiveKappa region1 1 = 0.11).
  { unfold effectiveKappa, region1, rootRegion. cbn [kappaWalk fst snd].
    change (Z.to_nat (Z.max 0 (1 - 1))) with 0%nat.
    rewrite pow_O. rewrite truthy_true by lra. lra. }
  assert (E2 : spec_effectiveKappa region1 1 = 0.208 / 1.88).
  { unfold spec_effectiveKappa, region1, rootRegion. cbn [chain tail map kappa].
    rewrite !sum_cons, !sum_nil. unfold decay. cbn [generation].
    change (Z.to_nat (Z.max 0 (1 - 0))) with 1%nat.
    rewrite pow_1. rewrite truthy_true by lra. lra. }
  split; [done|]. split; [done|].
  rewrite E1, E2. intros H.
  lra.
Qed.

(** ** Region.allowedHueBand *)

Lemma jsmod_floor a b k :
  0 < b -> (0 <= k)%Z -> IZR k * b <= a < (IZR k + 1) * b ->
  jsmod a b = a - b * IZR k.
Proof.
  intros Hb Hk [H1 H2]. unfold jsmod, Rtrunc.
  assert (Hq : IZR k <= a / b < IZR k + 1).
  { split.
    - apply (Rmult_le_reg_r b); [done|].
      replace (a / b * b) with a by (field; lra). lra.
    - apply (Rmult_lt_reg_r b); [done|].
      replace (a / b * b) with a by (field; lra). lra. }
  assert (0 <= IZR k) by (by apply IZR_le).
  rewrite bool_decide_eq_false_2 by lra.
  by rewrite (Zfloor_eq k).
Qed.

Lemma hueCenter_PI : hueCenter PI = 1 / 2.
Proof.
  unfold hueCenter. pose proof PI_RGT_0 as Hpi.
  rewrite (jsmod_small PI) by lra.
  rewrite (jsmod_floor _ _ 1) by (simpl; lra || lia).
  field. lra.
Qed.

Lemma sum_foldr l : sum l = foldr Rplus 0 l.
Proof. induction l as [|v l IH]; [done|]. rewrite sum_cons, IH. done. Qed.

Lemma avg_times_length l : INR (length l) * avg l = sum l.
Proof.
  unfold avg. case_bool_decide as H.
  - field. by apply not_0_INR.
  - assert (l = []) as -> by (destruct l; [done | simpl in H; lia]).
    rewrite sum_nil. simpl. lra.
Qed.

Lemma allowedHueBand_center this thetaVec coh s :
  center (fst (allowedHueBand this thetaVec coh s)) = hueCenter (avg thetaVec).
Proof. reflexivity. Qed.

Lemma allowedHueBand_meanTheta this thetaVec coh s :
  meanTheta (snd (allowedHueBand this thetaVec coh s)) this = avg thetaVec.
Proof.
  unfold meanTheta, allowedHueBand. cbn [snd setTheta thetas].
  apply lookup_total_insert_eq.
Qed.

(** C8 (as amended).  [allowedHueBand] takes the arithmetic mean of the
    samples, 0 when there are none, writes it to [meanTheta], and returns as
    centre that mean reduced into [0, 2 PI) and divided by [2 PI].  A call
    without samples returns centre 0 and resets the cached mean to 0. *)
Theorem allowedHueBand_arithmetic_mean this thetaVec coh s :
  meanTheta (snd (allowedHueBand this thetaVec coh s)) this = avg thetaVec
  /\ INR (length thetaVec) * avg thetaVec = foldr Rplus 0 thetaVec
  /\ center (fst (allowedHueBand this thetaVec coh s)) = hueCenter (avg thetaVec)
  /\ 0 <= center (fst (allowedHueBand this thetaVec coh s)) < 1
  /\ center (fst (allowedHueBand this [] coh s)) = 0
  /\ meanTheta (snd (allowedHueBand this [] coh s)) this = 0.
Proof.
  rewrite !allowedHueBand_meanTheta, !allowedHueBand_center, avg_nil.
  rewrite avg_times_length, sum_foldr.
  repeat split; try done.
  - apply hueCenter_range.
  - apply hueCenter_range.
  - apply hueCenter_zero.
Qed.

(** C8 (the claim as stated fails).  After the root region has cached the
    mean [PI], whose hue centre is 1/2, a call without samples returns
    centre 0, not the centre of the cached mean.  And for the samples
    [0; 2 PI], which both point along direction 0, the mean taken is [PI],
    which is not a circular mean of them. *)
Lemma allowedHueBand_not_circular_nor_cached :
  let s1 := snd (allowedHueBand rootRegion [PI] 50 emptyStore) in
  meanTheta s1 rootRegion = PI
  /\ hueCenter (meanTheta s1 rootRegion) = 1 / 2
  /\ center (fst (allowedHueBand rootRegion [] 50 s1)) = 0
  /\ center (fst (allowedHueBand rootRegion [] 50 s1)) <> hueCenter (meanTheta s1 rootRegion)
  /\ meanTheta (snd (allowedHueBand rootRegion [0; 2 * PI] 50 emptyStore)) rootRegion = PI
  /\ ~ isCircularMean [0; 2 * PI] PI.
Proof.
  intros s1.
  assert (E1 : meanTheta s1 rootRegion = PI).
  { unfold s1. by rewrite allowedHueBand_meanTheta, avg_singleton. }
  assert (E2 : center (fst (allowedHueBand rootRegion [] 50 s1)) = 0).
  { rewrite allowedHueBand_center, avg_nil. apply hueCenter_zero. }
  rewrite E1, E2, hueCenter_PI.
  repeat split; try done.
  - lra.
  - rewrite allowedHueBand_meanTheta. unfold avg.
    rewrite bool_decide_eq_true_2 by (simpl; lia).
    rewrite !sum_cons, sum_nil. simpl. field.
  - intros [_ H]. cbn [map] in H. rewrite !sum_cons, sum_nil in H.
    replace (0 - PI) with (- PI) in H by lra.
    replace (2 * PI - PI) with PI in H by lra.
    rewrite cos_neg, cos_PI in H. lra.
Qed.

(** ** The horizon pull *)








(** ** Vectors *)

Lemma vec3_eq a b : vx a = vx b -> vy a = vy b -> vz a = vz b -> a = b.
Proof. destruct a, b. simpl. by intros -> -> ->. Qed.

Lemma vlen_sqrt v : vlen v = sqrt (vx v * vx v + vy v * vy v + vz v * vz v).
Proof.
  unfold vlen, hypot. rewrite orElse_0. cbn [foldr]. f_equal. lra.
Qed.

Lemma vlen_nonneg v : 0 <= vlen v.
Proof. apply hypot_nonneg. Qed.

Lemma vlen_vzero : vlen vzero = 0.
Proof.
  rewrite vlen_sqrt. cbn [vx vy vz vzero].
  replace (0 * 0 + 0 * 0 + 0 * 0) with 0 by lra. apply sqrt_0.
Qed.

Lemma vsub_self c : vsub c c = vzero.
Proof. apply vec3_eq; cbn [vx vy vz vsub vzero]; lra. Qed.

Lemma vscale_vzero k : vscale vzero k = vzero.
Proof. apply vec3_eq; cbn [vx vy vz vscale vzero]; rewrite ?orElse_0; lra. Qed.

Lemma vscale_vscale v a b : vscale (vscale v a) b = vscale v (a * b).
Proof. apply vec3_eq; cbn [vx vy vz vscale]; rewrite ?orElse_0; lra. Qed.

Lemma vnorm_vzero : vnorm vzero = vzero.
Proof. unfold vnorm. apply vscale_vzero. Qed.

Lemma vnorm_nonzero v : vlen v <> 0 -> vnorm v = vscale v (1 / vlen v).
Proof. intros H. unfold vnorm, orElse. by rewrite truthy_true. Qed.

Lemma vlen_vscale v k : 0 <= k -> vlen (vscale v k) = k * vlen v.
Proof.
  intros Hk. rewrite !vlen_sqrt. cbn [vx vy vz vscale]. rewrite orElse_0.
  replace (vx v * k * (vx v * k) + vy v * k * (vy v * k) + vz v * k * (vz v * k))
    with (k * k * (vx v * vx v + vy v * vy v + vz v * vz v)) by ring.
  rewrite sqrt_mult; [|nra|nra]. by rewrite sqrt_square.
Qed.

Lemma vlen_vnorm v : vlen v <> 0 -> vlen (vnorm v) = 1.
Proof.
  intros H. pose proof (vlen_nonneg v).
  rewrite vnorm_nonzero by done. rewrite vlen_vscale.
  - field. done.
  - apply div_nonneg; lra.
Qed.

Lemma vlen_ge_vx v : Rabs (vx v) <= vlen v.
Proof. unfold vlen. by apply (hypot_ge_elem _ 0%nat). Qed.

(** ** Region.computeField *)

Lemma baseField_at_center this : baseField this (fieldCenter this) = vzero.
Proof.
  unfold baseField. rewrite vsub_self, vnorm_vzero. apply vscale_vzero.
Qed.

Lemma falloff_bounds fs d0 :
  0 < fs -> 0 <= d0 ->
  0 < falloff fs d0
  /\ fs * (1 - 0.01 * (d0 + 1e-6) * (d0 + 1e-6)) <= falloff fs d0 <= fs.
Proof.
  intros Hfs Hd. unfold falloff.
  set (x := 0.01 * (d0 + 1e-6) * (d0 + 1e-6)).
  assert (Hx : 0 <= x) by (unfold x; nra).
  assert (Hm : fs / (1 + x) * (1 + x) = fs) by (field; lra).
  assert (Hp : 0 < fs / (1 + x)).
  { unfold Rdiv. apply Rmult_lt_0_compat; [done|]. apply Rinv_0_lt_compat. lra. }
  set (m := fs / (1 + x)) in *. repeat split; nra.
Qed.

(** C10 (as amended).  For a region without a parent and with positive
    strength [fs], the field at a point [p] other than the centre [c] is a
    positive multiple of [c - p], so it points toward the centre, and its
    magnitude is [fs / (1 + 0.01 d^2)] with [d = |c - p| + 1e-6]: at most
    [fs], and within the factor [1 - 0.01 d^2] of it.  At the centre itself
    the field is the zero vector. *)
Theorem rootField_toward_center id k nz obs gen c fs l p :
  0 < fs -> 0 < vlen (vsub c p) ->
  computeField (mkRegion id None k nz obs gen c fs l) p
  = vscale (vsub c p) (falloff fs (vlen (vsub c p)) / vlen (vsub c p))
  /\ 0 < falloff fs (vlen (vsub c p)) / vlen (vsub c p)
  /\ vlen (computeField (mkRegion id None k nz obs gen c fs l) p)
     = falloff fs (vlen (vsub c p))
  /\ fs * (1 - 0.01 * (vlen (vsub c p) + 1e-6) * (vlen (vsub c p) + 1e-6))
     <= vlen (computeField (mkRegion id None k nz obs gen c fs l) p) <= fs
  /\ computeField (mkRegion id None k nz obs gen c fs l) c = vzero.
Proof.
  intros Hfs Hd.
  destruct (falloff_bounds fs (vlen (vsub c p)) Hfs ltac:(lra)) as [Hf Hb].
  assert (Hk : 0 < falloff fs (vlen (vsub c p)) / vlen (vsub c p)).
  { unfold Rdiv. apply Rmult_lt_0_compat; [done|]. by apply Rinv_0_lt_compat. }
  assert (E : computeField (mkRegion id None k nz obs gen c fs l) p
              = vscale (vsub c p) (falloff fs (vlen (vsub c p)) / vlen (vsub c p))).
  { cbn [computeField]. unfold baseField. cbn [fieldCenter fieldStrength].
    rewrite vnorm_nonzero by lra. rewrite vscale_vscale.
    f_equal. unfold falloff. field. split; [nra | lra]. }
  assert (El : vlen (computeField (mkRegion id None k nz obs gen c fs l) p)
               = falloff fs (vlen (vsub c p))).
  { rewrite E, vlen_vscale by lra. field. lra. }
  rewrite El. repeat split; try done; try lra.
  cbn [computeField]. apply (baseField_at_center (mkRegion id None k nz obs gen c fs l)).
Qed.

Lemma rootField_toward_center_witness :
  vlen (computeField fieldRegion (mkVec3 79 0 0))
  = falloff 0.008 (vlen (vsub (mkVec3 80 0 0) (mkVec3 79 0 0)))
  /\ computeField fieldRegion (mkVec3 80 0 0) = vzero.
Proof.
  assert (Hd : 0 < vlen (vsub (mkVec3 80 0 0) (mkVec3 79 0 0))).
  { pose proof (vlen_ge_vx (vsub (mkVec3 80 0 0) (mkVec3 79 0 0))) as H.
    cbn [vx vsub] in H. unfold Rabs in H. destruct Rcase_abs; lra. }
  destruct (rootField_toward_center "f" 0.1 0 [] 0 (mkVec3 80 0 0) 0.008 3%positive
              (mkVec3 79 0 0) ltac:(lra) Hd) as (_ & _ & H1 & _ & H2).
  split; [exact H1 | exact H2].
Defined.

(** C10 (the claim as stated fails).  At the field centre the field of the
    scenario's region is the zero vector: its magnitude is 0, at distance
    [fieldStrength] from the value claimed. *)
Lemma field_at_center_is_zero :
  computeField fieldRegion (fieldCenter fieldRegion) = vzero
  /\ vlen (computeField fieldRegion (fieldCenter fieldRegion)) = 0
  /\ ~ Rabs (vlen (computeField fieldRegion (fieldCenter fieldRegion))
             - fieldStrength fieldRegion) < fieldStrength fieldRegion.
Proof.
  assert (E : computeField fieldRegion (fieldCenter fieldRegion) = vzero)
    by apply (baseField_at_center fieldRegion).
  rewrite E, vlen_vzero. repeat split; try done.
  cbn [fieldStrength fieldRegion]. unfold Rabs. destruct Rcase_abs; lra.
Qed.

(** ** The bounds on the evolved node *)

Lemma hueBandStep_hue_range ro nbrs rot coh h s :
  0 <= h < 1 -> 0 <= snd (fst (hueBandStep ro nbrs rot coh h s)) < 1.
Proof.
  intros Hh. destruct ro as [r|]; cbn [hueBandStep fst snd]; [|done].
  rewrite allowedHueBand_center.
  pose proof (hueCenter_range (avg (map rotation nbrs ++ [rot]))) as Hc.
  set (c := hueCenter _) in *.
  assert (Hd : 0 <= jsmod (c - h + 1.5) 1 < 1) by (apply jsmod_nonneg; lra).
  apply jsmod_nonneg; lra.
Qed.

Lemma evolved_hue node ctx s g :
  hue (evolved node ctx s g)
  = jsmod (snd (fst (hueBandStep (regionObj ctx) (neighbors ctx)
                       (alignRotation (neighbors ctx) (rotation node))
                       (coherence node) (hue node) s)) + 0 + 1) 1.
Proof.
  unfold evolved, evolveBody. cbn [fst snd hue].
  rewrite velocityOf_zero, learningRateOf_zero, growthPotentialOf_zero.
  by rewrite horizonPull_low by lra.
Qed.

Lemma evolved_hue_range node ctx s g :
  0 <= hue node < 1 -> 0 <= hue (evolved node ctx s g) < 1.
Proof.
  intros H. rewrite evolved_hue.
  pose proof (hueBandStep_hue_range (regionObj ctx) (neighbors ctx)
                (alignRotation (neighbors ctx) (rotation node))
                (coherence node) (hue node) s H).
  apply jsmod_nonneg; lra.
Qed.

Lemma evolved_coherence_range node ctx s g :
  0 <= coherence (evolved node ctx s g) <= 100.
Proof.
  change (coherence (evolved node ctx s g))
    with (coherenceStep (contributions ctx) (entropy (evolved node ctx s g))
            (growthPotential (evolved node ctx s g))).
  unfold coherenceStep. apply clamp_bounds. lra.
Qed.

Lemma evolved_stagnation_range node ctx s g :
  0 <= stagnation (evolved node ctx s g) <= 1.
Proof. rewrite evolved_stagnation. unfold stagnationStep. apply clamp_bounds. lra. Qed.

Lemma breakthrough_entropy_range coh stag ht g :
  0 <= stag <= 1 ->
  0.1 <= snd (fst (breakthrough coh stag ht (trueEntropy coh stag 0) g)) <= 1000.
Proof.
  intros Hs. unfold breakthrough, breakthroughGuard.
  pose proof (clamp_bounds ((1 - coh / 100) * (1 + stag * 2) * (1 - 0)) 0.1 1000
                ltac:(lra)) as Hc.
  destruct (gtb coh 92) eqn:E; cbn [andb fst snd]; [|exact Hc].
  destruct (gtb stag 0.8); cbn [fst snd]; [|exact Hc].
  apply gtb_spec in E. unfold trueEntropy in *.
  set (x := (1 - coh / 100) * (1 + stag * 2) * (1 - 0)) in *.
  assert (Hx : x <= 0.24) by (unfold x; nra).
  unfold clamp, Rmax, Rmin in *. repeat destruct Rle_dec; lra.
Qed.

Lemma evolved_entropy_range node ctx s g :
  0.1 <= entropy (evolved node ctx s g) <= 1000.
Proof.
  pose proof (evolved_stagnation_range node ctx s g) as Hs.
  rewrite evolved_stagnation in Hs.
  unfold evolved, evolveBody. cbn [fst snd entropy].
  rewrite learningRateOf_zero' by apply velocityOf_zero.
  by apply breakthrough_entropy_range.
Qed.

Lemma sandboxStep_range coh sb : 0.3 <= sb <= 10 -> 0.3 <= sandboxStep coh sb <= 10.
Proof.
  intros H. unfold sandboxStep, Rmin, Rmax.
  destruct (gtb coh 80); destruct Rle_dec; lra.
Qed.

Lemma evolved_sandbox_range node ctx s g :
  0.3 <= sandbox node <= 10 -> 0.3 <= sandbox (evolved node ctx s g) <= 10.
Proof.
  intros H.
  change (sandbox (evolved node ctx s g))
    with (if incubating (evolved node ctx s g)
          then Rmin (sandboxStep (coherence (evolved node ctx s g)) (sandbox node)) 1.2
          else sandboxStep (coherence (evolved node ctx s g)) (sandbox node)).
  pose proof (sandboxStep_range (coherence (evolved node ctx s g)) (sandbox node) H).
  destruct (incubating _); [|done]. unfold Rmin. destruct Rle_dec; lra.
Qed.

Lemma worldBounds_range p : vlen (worldBounds p) <= 500.
Proof.
  unfold worldBounds. destruct (gtb (vlen p) 500) eqn:E.
  - apply gtb_spec in E. rewrite vlen_vscale by lra.
    rewrite vlen_vnorm by lra. lra.
  - unfold gtb in E. apply bool_decide_eq_false in E. lra.
Qed.

Lemma evolved_pos_range node ctx s g : vlen (pos (evolved node ctx s g)) <= 500.
Proof. unfold evolved, evolveBody. cbn [fst snd pos]. apply worldBounds_range. Qed.

Lemma evolved_history_length node ctx s g :
  (length (numArrays s !!! incubationHistory node) <= 40)%nat ->
  length (numArrays (snd (fst (evolveBody node ctx s g))) !!! incubationHistory node)
  = Nat.min 40 (length (numArrays s !!! incubationHistory node) + 1).
Proof.
  intros H. rewrite body_incubationHistory, pushShift_length.
  case_bool_decide; lia.
Qed.

(** One step: the bounds hold afterwards, the step can be taken again, and
    the history has grown by one entry up to its capacity. *)
Lemma evolved_invariants node ctx s g :
  admissible node s ->
  stepInvariant (evolved node ctx s g) (snd (fst (evolveBody node ctx s g)))
  /\ admissible (evolved node ctx s g) (snd (fst (evolveBody node ctx s g)))
  /\ length (numArrays (snd (fst (evolveBody node ctx s g)))
               !!! incubationHistory (evolved node ctx s g))
     = Nat.min 40 (length (numArrays s !!! incubationHistory node) + 1).
Proof.
  intros (Hh & Hsb & Hm & Hl).
  pose proof (evolved_hue_range node ctx s g Hh).
  pose proof (evolved_sandbox_range node ctx s g Hsb).
  pose proof (evolved_history_length node ctx s g Hl) as Hlen.
  change (incubationHistory (evolved node ctx s g)) with (incubationHistory node).
  assert (Hl' : (length (numArrays (snd (fst (evolveBody node ctx s g)))
                           !!! incubationHistory node) <= 40)%nat) by lia.
  unfold stepInvariant, admissible.
  change (incubationHistory (evolved node ctx s g)) with (incubationHistory node).
  change (mass (evolved node ctx s g)) with (mass node).
  repeat split; try done; try lra;
    try apply evolved_coherence_range; try apply evolved_stagnation_range;
    try apply evolved_entropy_range; try apply evolved_pos_range.
Qed.

Lemma evolveSteps_cons c cs node s g :
  0.02 <= draw (snd (evolveBody node (fst c) s g)) ->
  evolveSteps (c :: cs) node s g
  = evolveSteps cs (evolved node (fst c) s g)
      (snd (fst (evolveBody node (fst c) s g)))
      (rest (snd (evolveBody node (fst c) s g))).
Proof. intros H. cbn [evolveSteps]. by rewrite evolveNode_returns. Qed.

Lemma evolveSteps_Return_cons c cs node s g n' :
  fst (fst (evolveSteps (c :: cs) node s g)) = Return n' ->
  evolveSteps (c :: cs) node s g
  = evolveSteps cs (evolved node (fst c) s g)
      (snd (fst (evolveBody node (fst c) s g)))
      (rest (snd (evolveBody node (fst c) s g))).
Proof.
  intros H.
  destruct (Rlt_dec (draw (snd (evolveBody node (fst c) s g))) 0.02) as [Hd|Hd].
  - cbn [evolveSteps] in H. rewrite evolveNode_throws in H by done.
    cbn [fst snd] in H. discriminate.
  - apply evolveSteps_cons. lra.
Qed.

(** C5 (as amended).  Take a node whose hue lies in [0,1), whose sandbox lies
    in [0.3,10], whose mass is not zero and whose incubation history holds at
    most 40 entries.  After any run of one or more steps that returns, the
    node satisfies every bound, and its history holds the entries it had
    plus one per step, capped at 40. *)
Theorem evolveSteps_invariants cs c node s g n' :
  admissible node s ->
  fst (fst (evolveSteps (c :: cs) node s g)) = Return n' ->
  stepInvariant n' (snd (fst (evolveSteps (c :: cs) node s g)))
  /\ length (numArrays (snd (fst (evolveSteps (c :: cs) node s g)))
               !!! incubationHistory n')
     = Nat.min 40 (length (numArrays s !!! incubationHistory node) + length (c :: cs)).
Proof.
  revert c node s g. induction cs as [|c' cs IH]; intros c node s g Hadm Hrun.
  - rewrite (evolveSteps_Return_cons _ _ _ _ _ _ Hrun) in Hrun |- *.
    cbn [evolveSteps fst snd] in Hrun |- *. injection Hrun as <-.
    destruct (evolved_invariants node (fst c) s g Hadm) as (Hinv & _ & Hlen).
    split; [exact Hinv | exact Hlen].
  - rewrite (evolveSteps_Return_cons _ _ _ _ _ _ Hrun) in Hrun |- *.
    destruct (evolved_invariants node (fst c) s g Hadm) as (_ & Hadm' & Hlen).
    destruct (IH c' _ _ _ Hadm' Hrun) as [Hinv Hlen'].
    split; [exact Hinv|].
    rewrite Hlen', Hlen. cbn [length]. lia.
Qed.

Lemma node0_admissible : admissible node0 store0.
Proof.
  unfold admissible. rewrite node0_incubationHistory.
  change (hue node0) with 0.5. change (sandbox node0) with 1.
  change (mass node0) with 1.
  repeat split; try lra. simpl. lia.
Qed.

Lemma evolveSteps_invariants_witness :
  exists n',
    fst (fst (evolveSteps (replicate 41 (ctxEmpty, 1%Z)) node0 store0 (constRng 0.5)))
    = Return n'
    /\ stepInvariant n'
         (snd (fst (evolveSteps (replicate 41 (ctxEmpty, 1%Z)) node0 store0 (constRng 0.5))))
    /\ length (numArrays
                 (snd (fst (evolveSteps (replicate 41 (ctxEmpty, 1%Z)) node0 store0
                              (constRng 0.5))))
                 !!! incubationHistory n') = 40%nat.
Proof.
  destruct (evolveSteps_returns_const 0.5 (replicate 41 (ctxEmpty, 1%Z))
              node0 store0 (constRng 0.5)) as [n' Hn']; [reflexivity | lra |].
  exists n'. split; [exact Hn'|].
  destruct (evolveSteps_invariants (replicate 40 (ctxEmpty, 1%Z)) (ctxEmpty, 1%Z)
              node0 store0 (constRng 0.5) n' node0_admissible Hn') as [Hinv Hlen].
  split; [exact Hinv|].
  etransitivity; [exact Hlen|].
  rewrite node0_incubationHistory. reflexivity.
Defined.

(** C5 (the claim as stated fails).  A node built with [sandbox: 20,
    incubating: false] leaves a step with sandbox 19.88: the step scales the
    sandbox and bounds it on one side only. *)
Lemma sandbox_not_bounded_for_all_inputs :
  fst (fst (evolveNode nodeWide ctxEmpty 1 storeWide (constRng 0.5)))
  = Return (evolved nodeWide ctxEmpty storeWide (constRng 0.5))
  /\ sandbox (evolved nodeWide ctxEmpty storeWide (constRng 0.5)) = 19.88
  /\ ~ stepInvariant (evolved nodeWide ctxEmpty storeWide (constRng 0.5))
         (snd (fst (evolveNode nodeWide ctxEmpty 1 storeWide (constRng 0.5)))).
Proof.
  assert (Hc : coherence (evolved nodeWide ctxEmpty storeWide (constRng 0.5)) = 0).
  { change (coherence (evolved nodeWide ctxEmpty storeWide (constRng 0.5)))
      with (coherenceStep []
              (entropy (evolved nodeWide ctxEmpty storeWide (constRng 0.5)))
              (growthPotential (evolved nodeWide ctxEmpty storeWide (constRng 0.5)))).
    unfold coherenceStep. rewrite sum_nil.
    rewrite clamp_id; unfold Rdiv; [ring | lra]. }
  assert (Hs : sandbox (evolved nodeWide ctxEmpty storeWide (constRng 0.5)) = 19.88).
  { change (sandbox (evolved nodeWide ctxEmpty storeWide (constRng 0.5)))
      with (sandboxStep (coherence (evolved nodeWide ctxEmpty storeWide (constRng 0.5))) 20).
    rewrite Hc. unfold sandboxStep. rewrite gtb_false by lra.
    unfold Rmax. destruct Rle_dec; lra. }
  split; [by apply (evolveNode_returns_const 0.5); [|lra]|].
  split; [exact Hs|].
  intros (_ & _ & _ & _ & Hsb & _). rewrite Hs in Hsb. lra.
Qed.

(** * Further properties *)

(** ** Utilities *)

(** X1.  With ordered bounds [clamp] lands in the interval, leaves a value of
    the interval alone and is idempotent; with the bounds the wrong way
    round it returns the lower bound [a], whatever the value. *)
Theorem clamp_behaviour v a b :
  (a <= b -> a <= clamp v a b <= b)
  /\ (a <= v <= b -> clamp v a b = v)
  /\ clamp (clamp v a b) a b = clamp v a b
  /\ (b < a -> clamp v a b = a).
Proof.
  unfold clamp, Rmax, Rmin. repeat split; intros; repeat destruct Rle_dec; lra.
Qed.

Lemma clamp_behaviour_witness :
  clamp 7 0 1 = 1 /\ clamp 0.5 0 1 = 0.5 /\ clamp 7 1 0 = 1.
Proof.
  destruct (clamp_behaviour 7 0 1) as (H1 & _ & _ & _).
  destruct (clamp_behaviour 0.5 0 1) as (_ & H2 & _ & _).
  destruct (clamp_behaviour 7 1 0) as (_ & _ & _ & H3).
  repeat split.
  - pose proof (H1 ltac:(lra)) as H. unfold clamp, Rmax, Rmin in *.
    repeat destruct Rle_dec; lra.
  - apply H2. lra.
  - apply H3. lra.
Defined.

Lemma sum_between lo hi l :
  Forall (fun v => lo <= v <= hi) l ->
  INR (length l) * lo <= sum l <= INR (length l) * hi.
Proof.
  induction 1 as [|v l Hv Hl IH].
  - rewrite sum_nil. simpl. lra.
  - rewrite sum_cons. change (length (v :: l)) with (S (length l)).
    rewrite S_INR. lra.
Qed.

Lemma avg_range lo hi l :
  l <> [] -> Forall (fun v => lo <= v <= hi) l -> lo <= avg l <= hi.
Proof.
  intros Hne Hl. pose proof (sum_between lo hi l Hl) as [H1 H2].
  pose proof (avg_times_length l) as E.
  assert (Hn : 0 < INR (length l)).
  { apply lt_0_INR. destruct l; [done | simpl; lia]. }
  rewrite <- E in H1, H2. split; nra.
Qed.

(** X2.  The mean of a non-empty list lies between any two bounds of its
    entries; the mean of the empty list is 0, not an error. *)
Theorem avg_between lo hi l :
  (l <> [] -> Forall (fun v => lo <= v <= hi) l -> lo <= avg l <= hi)
  /\ avg [] = 0.
Proof. split; [apply avg_range | apply avg_nil]. Qed.

Lemma avg_between_witness : 1 <= avg [1; 2; 3] <= 3.
Proof.
  apply (proj1 (avg_between 1 3 [1; 2; 3])); [done|].
  repeat constructor; lra.
Defined.

(** X3.  [vecDiff a b] has the length of [a]; where [b] has an entry it
    subtracts it, and where [b] is too short the entry of [a] is kept, so
    that [vecDiff a []] is [a]. *)
Theorem vecDiff_shape a b :
  length (vecDiff a b) = length a
  /\ (forall i v w, a !! i = Some v -> b !! i = Some w -> vecDiff a b !! i = Some (v - w))
  /\ (forall i v, a !! i = Some v -> b !! i = None -> vecDiff a b !! i = Some v)
  /\ vecDiff a [] = a.
Proof.
  assert (Hshort : forall i v, a !! i = Some v -> b !! i = None ->
                     vecDiff a b !! i = Some v).
  { intros i v Ha Hb. unfold vecDiff. rewrite list_lookup_imap, Ha, Hb.
    simpl. f_equal. lra. }
  repeat split.
  - unfold vecDiff. apply length_imap.
  - intros i v w. apply vecDiff_lookup.
  - exact Hshort.
  - apply list_eq. intros i. unfold vecDiff. rewrite list_lookup_imap.
    destruct (a !! i) as [v|]; simpl; [|done]. f_equal. lra.
Qed.

Lemma vecDiff_shape_witness :
  vecDiff [5; 7] [2] !! 0%nat = Some (5 - 2) /\ vecDiff [5; 7] [2] !! 1%nat = Some 7.
Proof.
  destruct (vecDiff_shape [5; 7] [2]) as (_ & H1 & H2 & _).
  split; [by apply H1 | by apply H2].
Defined.

(** X4.  [nearlyEqual] with a positive tolerance is reflexive and symmetric,
    but it is not transitive: 0 and 1.5e-6 are not nearly equal although
    each is nearly equal to 0.75e-6. *)
Theorem nearlyEqual_not_an_equivalence :
  (forall a e, 0 < e -> nearlyEqual a a e = true)
  /\ (forall a b e, nearlyEqual a b e = nearlyEqual b a e)
  /\ nearlyEqual0 0 0.75e-6 = true
  /\ nearlyEqual0 0.75e-6 1.5e-6 = true
  /\ nearlyEqual0 0 1.5e-6 = false.
Proof.
  unfold nearlyEqual0, nearlyEqual. repeat split.
  - intros a e He. apply bool_decide_eq_true_2.
    replace (a - a) with 0 by lra. rewrite Rabs_R0. done.
  - intros a b e. by rewrite Rabs_minus_sym.
  - apply bool_decide_eq_true_2. unfold Rabs. destruct Rcase_abs; lra.
  - apply bool_decide_eq_true_2. unfold Rabs. destruct Rcase_abs; lra.
  - apply bool_decide_eq_false_2. unfold Rabs. destruct Rcase_abs; lra.
Qed.

Lemma nearlyEqual_not_an_equivalence_witness : nearlyEqual 3 3 0.5 = true.
Proof.
  destruct nearlyEqual_not_an_equivalence as (H & _). apply H. lra.
Defined.

(** ** Vector helpers *)

Lemma vlen_sqr v : vlen v * vlen v = vdot v v.
Proof.
  rewrite vlen_sqrt. unfold vdot. apply sqrt_sqrt.
  pose proof (Rle_0_sqr (vx v)). pose proof (Rle_0_sqr (vy v)).
  pose proof (Rle_0_sqr (vz v)). unfold Rsqr in *. lra.
Qed.

Lemma vlen_zero_iff v : vlen v = 0 <-> v = vzero.
Proof.
  split; [|intros ->; apply vlen_vzero].
  intros H. pose proof (vlen_sqr v) as E. rewrite H in E. unfold vdot in E.
  apply vec3_eq; cbn [vx vy vz vzero]; nra.
Qed.

Lemma cauchy_schwarz a b : vdot a b <= vlen a * vlen b.
Proof.
  pose proof (vlen_nonneg a) as Ha. pose proof (vlen_nonneg b) as Hb.
  assert (Hsq : vdot a b * vdot a b <= (vlen a * vlen b) * (vlen a * vlen b)).
  { replace (vlen a * vlen b * (vlen a * vlen b))
      with ((vlen a * vlen a) * (vlen b * vlen b)) by ring.
    rewrite !vlen_sqr. unfold vdot.
    pose proof (Rle_0_sqr (vx a * vy b - vy a * vx b)) as H1.
    pose proof (Rle_0_sqr (vx a * vz b - vz a * vx b)) as H2.
    pose proof (Rle_0_sqr (vy a * vz b - vz a * vy b)) as H3.
    unfold Rsqr in *.
    assert (E : (vx a * vx a + vy a * vy a + vz a * vz a)
                * (vx b * vx b + vy b * vy b + vz b * vz b)
                = (vx a * vx b + vy a * vy b + vz a * vz b)
                  * (vx a * vx b + vy a * vy b + vz a * vz b)
                  + (vx a * vy b - vy a * vx b) * (vx a * vy b - vy a * vx b)
                  + (vx a * vz b - vz a * vx b) * (vx a * vz b - vz a * vx b)
                  + (vy a * vz b - vz a * vy b) * (vy a * vz b - vz a * vy b))
      by ring.
    rewrite E. lra. }
  pose proof (Rmult_le_pos _ _ Ha Hb) as Hm.
  set (d := vdot a b) in *. set (m := vlen a * vlen b) in *.
  destruct (Rle_dec d m) as [|Hc]; [done|].
  apply Rnot_le_lt in Hc. clear -Hsq Hm Hc. nra.
Qed.

Lemma vlen_vadd_le a b : vlen (vadd a b) <= vlen a + vlen b.
Proof.
  pose proof (vlen_nonneg a) as Ha. pose proof (vlen_nonneg b) as Hb.
  pose proof (vlen_nonneg (vadd a b)) as Hab.
  pose proof (cauchy_schwarz a b) as Hcs.
  assert (E : vlen (vadd a b) * vlen (vadd a b)
              = vlen a * vlen a + vlen b * vlen b + 2 * vdot a b).
  { rewrite !vlen_sqr. unfold vdot. cbn [vx vy vz vadd]. rewrite !orElse_0. ring. }
  set (x := vlen a) in *. set (y := vlen b) in *. set (d := vdot a b) in *.
  set (z := vlen (vadd a b)) in *.
  destruct (Rle_dec z (x + y)) as [|Hc]; [done|].
  apply Rnot_le_lt in Hc. clear -Ha Hb Hab Hcs E Hc. nra.
Qed.

(** X5.  [vlen] is a norm on the vectors the helpers build: it is never
    negative, it is 0 for the zero vector only, scaling by [s] multiplies it
    by [|s|], and the length of a sum is at most the sum of the lengths. *)
Theorem vlen_is_norm a b s :
  0 <= vlen a
  /\ (vlen a = 0 <-> a = vzero)
  /\ vlen (vscale a s) = Rabs s * vlen a
  /\ vlen (vadd a b) <= vlen a + vlen b
  /\ vlen (vsub a b) = vlen (vsub b a).
Proof.
  repeat split.
  - apply vlen_nonneg.
  - apply vlen_zero_iff.
  - intros ->. apply vlen_vzero.
  - unfold Rabs. destruct Rcase_abs as [Hs|Hs].
    + replace (vscale a s) with (vscale (vscale a (-1)) (- s)).
      * rewrite vlen_vscale by lra. f_equal.
        rewrite !vlen_sqrt. cbn [vx vy vz vscale]. rewrite orElse_0. f_equal. ring.
      * rewrite vscale_vscale. f_equal. ring.
    + apply vlen_vscale. lra.
  - apply vlen_vadd_le.
  - rewrite !vlen_sqrt. cbn [vx vy vz vsub]. rewrite !orElse_0. f_equal. ring.
Qed.

Lemma vnorm_zero_len v : vlen v = 0 -> vnorm v = vzero.
Proof. intros H. apply vlen_zero_iff in H. subst v. apply vnorm_vzero. Qed.

Lemma vlen_vnorm_le v : vlen (vnorm v) <= 1.
Proof.
  destruct (Req_dec_T (vlen v) 0) as [E|E].
  - rewrite (vnorm_zero_len v E), vlen_vzero. lra.
  - rewrite (vlen_vnorm v E). lra.
Qed.

(** X6.  [vnorm] never divides by zero: a vector of length 0 comes back as
    the zero vector, and any other vector comes back with length 1, as a
    positive multiple of itself. *)
Theorem vnorm_unit_or_zero v :
  (vlen v = 0 -> vnorm v = vzero)
  /\ (vlen v <> 0 -> vlen (vnorm v) = 1 /\ vnorm v = vscale v (1 / vlen v) /\ 0 < 1 / vlen v)
  /\ vlen (vnorm v) <= 1.
Proof.
  pose proof (vlen_nonneg v) as Hn.
  repeat split.
  - apply vnorm_zero_len.
  - by apply vlen_vnorm.
  - by apply vnorm_nonzero.
  - apply Rdiv_lt_0_compat; lra.
  - apply vlen_vnorm_le.
Qed.

Lemma vnorm_unit_or_zero_witness :
  vnorm vzero = vzero /\ vlen (vnorm (mkVec3 3 0 0)) = 1.
Proof.
  destruct (vnorm_unit_or_zero vzero) as (H0 & _ & _).
  destruct (vnorm_unit_or_zero (mkVec3 3 0 0)) as (_ & H1 & _).
  split; [apply H0, vlen_vzero|].
  apply H1. pose proof (vlen_ge_vx (mkVec3 3 0 0)) as H. cbn [vx] in H.
  unfold Rabs in H. destruct Rcase_abs; lra.
Defined.

(** ** Region *)

(** Induction along the parent chain. *)
Lemma Region_chain_ind (P : Region -> Prop) :
  (forall id k nz obs gen fc fs l, P (mkRegion id None k nz obs gen fc fs l)) ->
  (forall id p k nz obs gen fc fs l, P p -> P (mkRegion id (Some p) k nz obs gen fc fs l)) ->
  forall r, P r.
Proof.
  intros Hroot Hstep. fix IH 1. intros [id [p|] k nz obs gen fc fs l].
  - apply Hstep, IH.
  - apply Hroot.
Qed.

Lemma chain_child id p k nz obs gen fc fs l :
  chain (mkRegion id (Some p) k nz obs gen fc fs l)
  = mkRegion id (Some p) k nz obs gen fc fs l :: chain p.
Proof. reflexivity. Qed.

Lemma computeField_child id p k nz obs gen fc fs l pos :
  computeField (mkRegion id (Some p) k nz obs gen fc fs l) pos
  = vadd (baseField (mkRegion id (Some p) k nz obs gen fc fs l) pos) (computeField p pos).
Proof. reflexivity. Qed.

(** X7.  The field of a region is the superposition of the radial fields of
    all regions on its parent chain: each component is the sum of that
    component over the chain. *)
Theorem computeField_superposition this p :
  vx (computeField this p) = sum (map (fun a => vx (baseField a p)) (chain this))
  /\ vy (computeField this p) = sum (map (fun a => vy (baseField a p)) (chain this))
  /\ vz (computeField this p) = sum (map (fun a => vz (baseField a p)) (chain this)).
Proof.
  induction this as [id k nz obs gen fc fs l | id q k nz obs gen fc fs l IH]
    using Region_chain_ind.
  - cbn [computeField chain map]. rewrite !sum_cons, !sum_nil. repeat split; lra.
  - destruct IH as (Hx & Hy & Hz).
    rewrite computeField_child, chain_child. cbn [map vx vy vz vadd].
    rewrite !sum_cons, !orElse_0, <- Hx, <- Hy, <- Hz. done.
Qed.

Lemma baseField_no_strength this p : fieldStrength this = 0 -> baseField this p = vzero.
Proof.
  intros H. unfold baseField. rewrite H.
  apply vec3_eq; cbn [vx vy vz vscale vzero]; unfold Rdiv; ring.
Qed.

(** X8.  When every region on the chain has field strength 0, the field is
    the zero vector at every position. *)
Theorem computeField_no_strength this p :
  Forall (fun a => fieldStrength a = 0) (chain this) -> computeField this p = vzero.
Proof.
  induction this as [id k nz obs gen fc fs l | id q k nz obs gen fc fs l IH]
    using Region_chain_ind; intros H.
  - apply Forall_cons_1 in H as [H _]. by apply baseField_no_strength.
  - rewrite chain_child in H. apply Forall_cons_1 in H as [H Hq].
    rewrite computeField_child, (baseField_no_strength _ p H), (IH Hq).
    apply vec3_eq; cbn [vx vy vz vadd vzero]; rewrite ?orElse_0; lra.
Qed.

Lemma computeField_no_strength_witness :
  computeField (mkRegion "z" None 0.1 0 [] 0 (mkVec3 80 0 0) 0 4%positive) (mkVec3 1 2 3)
  = vzero.
Proof.
  apply computeField_no_strength. repeat constructor.
Defined.

Lemma baseField_magnitude this p :
  0 <= fieldStrength this -> vlen (baseField this p) <= fieldStrength this.
Proof.
  intros Hfs. unfold baseField.
  set (d := vlen (vsub (fieldCenter this) p) + 1e-6).
  assert (Hk : 0 <= fieldStrength this / (1 + 0.01 * d * d) <= fieldStrength this).
  { assert (Hx : 0 <= 0.01 * d * d) by nra.
    assert (Hm : fieldStrength this / (1 + 0.01 * d * d) * (1 + 0.01 * d * d)
                 = fieldStrength this) by (field; lra).
    assert (Hp : 0 <= fieldStrength this / (1 + 0.01 * d * d)) by (apply div_nonneg; lra).
    split; [done | nra]. }
  rewrite vlen_vscale by lra.
  pose proof (vlen_vnorm_le (vsub (fieldCenter this) p)) as H1.
  pose proof (vlen_nonneg (vnorm (vsub (fieldCenter this) p))). nra.
Qed.

(** X9.  With no negative field strength on the chain, the field is nowhere
    stronger than the strengths of the chain added up. *)
Theorem computeField_magnitude this p :
  Forall (fun a => 0 <= fieldStrength a) (chain this) ->
  vlen (computeField this p) <= sum (map fieldStrength (chain this)).
Proof.
  induction this as [id k nz obs gen fc fs l | id q k nz obs gen fc fs l IH]
    using Region_chain_ind; intros H.
  - apply Forall_cons_1 in H as [H _]. cbn [computeField chain map].
    rewrite sum_cons, sum_nil, Rplus_0_r.
    by apply (baseField_magnitude (mkRegion id None k nz obs gen fc fs l)).
  - rewrite chain_child in H. apply Forall_cons_1 in H as [H Hq].
    rewrite computeField_child, chain_child. cbn [map]. rewrite sum_cons.
    pose proof (vlen_vadd_le
                  (baseField (mkRegion id (Some q) k nz obs gen fc fs l) p)
                  (computeField q p)).
    pose proof (baseField_magnitude (mkRegion id (Some q) k nz obs gen fc fs l) p H).
    specialize (IH Hq). lra.
Qed.

Lemma computeField_magnitude_witness :
  vlen (computeField region1 (mkVec3 1 2 3)) <= sum (map fieldStrength (chain region1)).
Proof.
  apply computeField_magnitude. repeat constructor; cbn [fieldStrength]; lra.
Defined.

Lemma weighted_sum_between g lo hi l :
  Forall (fun a => lo <= kappa a <= hi) l ->
  lo * sum (map (loopWeight g) l)
  <= sum (map (fun a => loopWeight g a * kappa a) l)
  <= hi * sum (map (loopWeight g) l).
Proof.
  induction 1 as [|a l Ha Hl IH]; cbn [map].
  - rewrite !sum_nil. lra.
  - rewrite !sum_cons. pose proof (loopWeight_pos g a). nra.
Qed.

Lemma effectiveKappa_mean this g :
  effectiveKappa this g
  = sum (map (fun a => loopWeight g a * kappa a) (chain this))
    / sum (map (loopWeight g) (chain this)).
Proof.
  unfold effectiveKappa. rewrite kappaWalk_sums. cbn [fst snd].
  rewrite !Rplus_0_l. rewrite truthy_true; [done|].
  pose proof (sum_weights_pos g (chain this) (chain_nonempty this)). lra.
Qed.

(** X10.  [effectiveKappa] never leaves the range of the [kappa] values on
    the chain: between any two bounds of those values, whatever generation
    it is asked at. *)
Theorem effectiveKappa_between this g lo hi :
  Forall (fun a => lo <= kappa a <= hi) (chain this) ->
  lo <= effectiveKappa this g <= hi.
Proof.
  intros H. rewrite effectiveKappa_mean.
  pose proof (weighted_sum_between g lo hi _ H) as [H1 H2].
  pose proof (sum_weights_pos g (chain this) (chain_nonempty this)) as Hw.
  set (W := sum (map (loopWeight g) (chain this))) in *.
  set (T := sum (map (fun a => loopWeight g a * kappa a) (chain this))) in *.
  assert (E : T / W * W = T) by (field; lra).
  split; nra.
Qed.

Lemma effectiveKappa_between_witness : 0.1 <= effectiveKappa region1 5 <= 0.12.
Proof.
  apply effectiveKappa_between. repeat constructor; cbn [kappa]; lra.
Defined.

Lemma hueCenter_congruent theta :
  exists k : Z, hueCenter theta * (2 * PI) = theta + 2 * PI * IZR k.
Proof.
  pose proof PI_RGT_0 as Hpi. unfold hueCenter, jsmod.
  set (k1 := Rtrunc (theta / (2 * PI))).
  set (k2 := Rtrunc ((theta - 2 * PI * IZR k1 + 2 * PI) / (2 * PI))).
  exists (1 - k1 - k2)%Z. rewrite !minus_IZR. field. lra.
Qed.

Lemma IZR_small m : -1 < IZR m < 1 -> m = 0%Z.
Proof.
  intros [H1 H2]. apply lt_IZR in H2.
  assert (H3 : (-1 < m)%Z) by (apply lt_IZR; simpl; lra). lia.
Qed.

(** X11.  The hue centre of an angle lies in [0,1), represents the angle up
    to whole turns, and is the same for two angles that differ by whole
    turns, negative angles included. *)
Theorem hueCenter_wraps theta n :
  0 <= hueCenter theta < 1
  /\ (exists k : Z, hueCenter theta * (2 * PI) = theta + 2 * PI * IZR k)
  /\ hueCenter (theta + 2 * PI * IZR n) = hueCenter theta.
Proof.
  pose proof PI_RGT_0 as Hpi.
  split; [apply hueCenter_range|]. split; [apply hueCenter_congruent|].
  destruct (hueCenter_congruent theta) as [k Hk].
  destruct (hueCenter_congruent (theta + 2 * PI * IZR n)) as [k' Hk'].
  pose proof (hueCenter_range theta) as Hr.
  pose proof (hueCenter_range (theta + 2 * PI * IZR n)) as Hr'.
  set (x := hueCenter theta) in *. set (y := hueCenter (theta + 2 * PI * IZR n)) in *.
  assert (E : y - x = IZR (n + k' - k)).
  { rewrite minus_IZR, plus_IZR.
    apply (Rmult_eq_reg_r (2 * PI)); [|lra].
    rewrite Rmult_minus_distr_r, Hk, Hk'. ring. }
  assert (Hm : (n + k' - k = 0)%Z) by (apply IZR_small; rewrite <- E; lra).
  rewrite Hm in E. simpl in E. lra.
Qed.

Lemma spread_inert coh :
  clamp (0.2 + (1 - clamp (coh / 100) 0 1) * 0.8) 0.05 1.5
  = 0.2 + (1 - clamp (coh / 100) 0 1) * 0.8
  /\ 0.2 <= 0.2 + (1 - clamp (coh / 100) 0 1) * 0.8 <= 1.
Proof.
  pose proof (clamp_bounds (coh / 100) 0 1 ltac:(lra)) as Hc.
  split; [apply clamp_id|]; lra.
Qed.

(** X12.  For a region whose chain has no negative [kappa], the band is well
    formed: the half width is positive and at most 1, the bounds satisfy
    [0 <= L <= center < U <= 1], and the spread is never cut by its outer
    clamp, so the half width is [(0.2 + 0.8 (1 - c)) / (1 + 8 kappa_eff)]
    with [c] the coherence fraction clamped to [0,1]. *)
Theorem allowedHueBand_well_formed this thetaVec coh s :
  Forall (fun a => 0 <= kappa a) (chain this) ->
  0 < halfWidth (fst (allowedHueBand this thetaVec coh s)) <= 1
  /\ halfWidth (fst (allowedHueBand this thetaVec coh s))
     = (0.2 + (1 - clamp (coh / 100) 0 1) * 0.8) / (1 + effectiveKappa0 this * 8)
  /\ 0 <= L (fst (allowedHueBand this thetaVec coh s))
     <= center (fst (allowedHueBand this thetaVec coh s))
  /\ center (fst (allowedHueBand this thetaVec coh s))
     < U (fst (allowedHueBand this thetaVec coh s)) <= 1.
Proof.
  intros Hk.
  assert (Hek : 0 <= effectiveKappa0 this).
  { unfold effectiveKappa0. rewrite effectiveKappa_mean.
    pose proof (sum_weights_pos (generation this) (chain this) (chain_nonempty this)).
    apply div_nonneg; [|done].
    clear -Hk. induction Hk as [|a l Ha Hl IH]; cbn [map].
    - rewrite sum_nil. lra.
    - rewrite sum_cons. pose proof (loopWeight_pos (generation this) a). nra. }
  destruct (spread_inert coh) as [Es Hs].
  unfold allowedHueBand. cbn [fst halfWidth L U center]. rewrite Es.
  pose proof (hueCenter_range (avg thetaVec)) as Hc.
  set (c := hueCenter (avg thetaVec)) in *.
  set (sp := 0.2 + (1 - clamp (coh / 100) 0 1) * 0.8) in *.
  set (ek := effectiveKappa0 this) in *.
  assert (Hi : 0 < 1 / (1 + ek * 8) <= 1).
  { assert (Hm : 1 / (1 + ek * 8) * (1 + ek * 8) = 1) by (field; lra).
    assert (0 < 1 / (1 + ek * 8)) by (apply Rdiv_lt_0_compat; lra).
    split; [done | nra]. }
  assert (Hhw : 0 < sp * (1 / (1 + ek * 8)) <= 1) by nra.
  split; [exact Hhw|]. split; [field; lra|].
  set (hw := sp * (1 / (1 + ek * 8))) in *.
  unfold clamp, Rmax, Rmin. repeat destruct Rle_dec; lra.
Qed.

Lemma allowedHueBand_well_formed_witness :
  0 < halfWidth (fst (allowedHueBand region1 [1; 2] 50 emptyStore)) <= 1
  /\ center (fst (allowedHueBand region1 [1; 2] 50 emptyStore))
     < U (fst (allowedHueBand region1 [1; 2] 50 emptyStore)) <= 1.
Proof.
  destruct (allowedHueBand_well_formed region1 [1; 2] 50 emptyStore) as (H1 & _ & _ & H2).
  - repeat constructor; cbn [kappa]; lra.
  - split; [exact H1 | exact H2].
Defined.

(** ** evolveNode: what a step writes and what it keeps *)

Lemma body_store node ctx s g :
  snd (fst (evolveBody node ctx s g))
  = setNumArray (incubationHistory node)
      (pushShift (numArrays s !!! incubationHistory node)
         (healthOf (coherence (evolved node ctx s g)) (entropy (evolved node ctx s g))
            (stagnation (evolved node ctx s g))))
      (snd (hueBandStep (regionObj ctx) (neighbors ctx)
              (alignRotation (neighbors ctx) (rotation node))
              (coherence node) (hue node) s)).
Proof.
  pose proof (body_incubationHistory node ctx s g) as Hh.
  unfold evolved in *. unfold evolveBody in *. cbn [fst snd] in *.
  cbn [setNumArray numArrays] in Hh. rewrite lookup_total_insert_eq in Hh.
  change (incubationHistory (spread node)) with (incubationHistory node) in *.
  rewrite Hh. clear Hh.
  rewrite velocityOf_zero, learningRateOf_zero, growthPotentialOf_zero.
  rewrite horizonPull_low by lra. reflexivity.
Qed.

(** X13.  A step writes two places and no other: the array behind the input
    node's [incubationHistory], which receives the new health score, and,
    when a region is given, that region's [meanTheta], which becomes the mean
    of the neighbours' rotations and the node's aligned rotation.  Every
    token array, every other number array and the [meanTheta] of every other
    region, the parent included, are as before; this holds whether the step
    returns or throws. *)
Theorem evolveNode_writes node ctx now s g :
  tokArrays (snd (fst (evolveNode node ctx now s g))) = tokArrays s
  /\ numArrays (snd (fst (evolveNode node ctx now s g)))
     = <[incubationHistory node :=
           pushShift (numArrays s !!! incubationHistory node)
             (healthOf (coherence (evolved node ctx s g)) (entropy (evolved node ctx s g))
                (stagnation (evolved node ctx s g)))]> (numArrays s)
  /\ thetas (snd (fst (evolveNode node ctx now s g)))
     = match regionObj ctx with
       | Some r =>
           <[self r := avg (map rotation (neighbors ctx)
                              ++ [alignRotation (neighbors ctx) (rotation node)])]> (thetas s)
       | None => thetas s
       end.
Proof.
  rewrite evolveNode_store, body_store. cbn [setNumArray tokArrays numArrays thetas].
  rewrite hueBandStep_tokArrays, hueBandStep_numArrays.
  repeat split. by destruct (regionObj ctx).
Qed.

(** X14.  Over any run that returns, the node keeps its identity, geometry,
    mass, range, field of view, children, region and both array addresses;
    its [incubating] flag is the one it started with, so a node that starts
    incubating never leaves incubation. *)
Theorem evolveSteps_keeps cs node s g n' :
  fst (fst (evolveSteps cs node s g)) = Return n' ->
  nid n' = nid node /\ type n' = type node /\ angles n' = angles node
  /\ sides n' = sides node /\ mass n' = mass node /\ range n' = range node
  /\ fov n' = fov node /\ children n' = children node /\ region n' = region node
  /\ history n' = history node /\ incubationHistory n' = incubationHistory node
  /\ incubating n' = incubating node.
Proof.
  revert node s g. induction cs as [|c cs IH]; intros node s g Hrun.
  - simpl in Hrun. injection Hrun as <-. repeat split.
  - rewrite (evolveSteps_Return_cons _ _ _ _ _ _ Hrun) in Hrun.
    apply IH in Hrun.
    assert (Hinc : incubating (evolved node (fst c) s g) = incubating node).
    { rewrite evolved_incubating, evolved_growthPotential.
      apply incubatingStep_low. lra. }
    rewrite Hinc in Hrun. exact Hrun.
Qed.

Lemma evolveSteps_keeps_witness :
  exists n', fst (fst (evolveSteps [(ctxEmpty, 1%Z); (ctxNbr, 2%Z)] node0 store0
                         (constRng 0.5))) = Return n'
             /\ nid n' = "n0" /\ incubating n' = true.
Proof.
  destruct (evolveSteps_returns_const 0.5 [(ctxEmpty, 1%Z); (ctxNbr, 2%Z)]
              node0 store0 (constRng 0.5)) as [n' Hn']; [reflexivity | lra |].
  exists n'. split; [exact Hn'|].
  destruct (evolveSteps_keeps _ _ _ _ _ Hn') as (H1 & _ & _ & _ & _ & _ & _ & _ & _ & _ & _ & H2).
  split; [exact H1 | exact H2].
Defined.

Lemma Rmin_step st : 0 <= st <= 1 -> clamp (st + 0.05) 0 1 = Rmin 1 (st + 0.05).
Proof. intros H. unfold clamp, Rmax, Rmin. repeat destruct Rle_dec; lra. Qed.

(** X15.  The stagnation of a node rises by 0.05 in every step until it
    reaches 1 and stays there: after a run of [k] steps from stagnation
    [st] in [0,1] it is [min(1, st + 0.05 k)], whatever the node does in
    between. *)
Theorem evolveSteps_stagnation cs node s g n' :
  0 <= stagnation node <= 1 ->
  fst (fst (evolveSteps cs node s g)) = Return n' ->
  stagnation n' = Rmin 1 (stagnation node + 0.05 * INR (length cs)).
Proof.
  revert node s g. induction cs as [|c cs IH]; intros node s g Hst Hrun.
  - simpl in Hrun. injection Hrun as <-. simpl. unfold Rmin. destruct Rle_dec; lra.
  - rewrite (evolveSteps_Return_cons _ _ _ _ _ _ Hrun) in Hrun.
    pose proof (evolved_stagnation_range node (fst c) s g) as Hr.
    rewrite (IH _ _ _ Hr Hrun).
    rewrite evolved_stagnation, velocityOf_zero, stagnationStep_still, Rmin_step by done.
    change (length (c :: cs)) with (S (length cs)). rewrite S_INR.
    pose proof (pos_INR (length cs)).
    unfold Rmin. repeat destruct Rle_dec; lra.
Qed.

Lemma evolveSteps_stagnation_witness :
  exists n', fst (fst (evolveSteps (replicate 20 (ctxEmpty, 1%Z)) node0 store0
                         (constRng 0.5))) = Return n'
             /\ stagnation n' = 1.
Proof.
  destruct (evolveSteps_returns_const 0.5 (replicate 20 (ctxEmpty, 1%Z))
              node0 store0 (constRng 0.5)) as [n' Hn']; [reflexivity | lra |].
  exists n'. split; [exact Hn'|].
  rewrite (evolveSteps_stagnation (replicate 20 (ctxEmpty, 1%Z)) node0 store0
             (constRng 0.5) n'); [| |exact Hn'].
  - change (stagnation node0) with 0. rewrite length_replicate.
    replace (0 + 0.05 * INR 20) with 1 by (simpl; lra).
    unfold Rmin. destruct Rle_dec; lra.
  - change (stagnation node0) with 0. lra.
Defined.

(** ** evolveNode: the fields of the returned node *)

Lemma evolved_thriving node ctx s g :
  isHappyChallenged (awareness (evolved node ctx s g)) = false.
Proof.
  unfold evolved, evolveBody. cbn [fst snd awareness isHappyChallenged].
  rewrite velocityOf_zero, learningRateOf_zero, growthPotentialOf_zero.
  rewrite (gtb_false 0 1.0) by lra. by rewrite andb_false_r.
Qed.

(** X16.  No step ever classifies a node as thriving: the returned
    [awareness.isHappyChallenged] is false for every node and context. *)
Theorem evolveNode_never_thriving node ctx now s g n' :
  fst (fst (evolveNode node ctx now s g)) = Return n' ->
  isHappyChallenged (awareness n') = false.
Proof. intros H. apply evolveNode_Return in H. subst. apply evolved_thriving. Qed.

Lemma evolveNode_never_thriving_witness :
  isHappyChallenged (awareness (evolved node0 ctxNbr store1 (constRng 0.5))) = false.
Proof.
  apply (evolveNode_never_thriving node0 ctxNbr 1 store1 (constRng 0.5)).
  apply (evolveNode_returns_const 0.5); [reflexivity | lra].
Defined.

Lemma evolved_sandbox_capped node ctx s g :
  incubating node = true -> sandbox (evolved node ctx s g) <= 1.2.
Proof.
  intros H.
  assert (Hinc : incubating (evolved node ctx s g) = true).
  { rewrite evolved_incubating, evolved_growthPotential, H.
    apply incubatingStep_low. lra. }
  change (sandbox (evolved node ctx s g))
    with (if incubating (evolved node ctx s g)
          then Rmin (sandboxStep (coherence (evolved node ctx s g)) (sandbox node)) 1.2
          else sandboxStep (coherence (evolved node ctx s g)) (sandbox node)).
  rewrite Hinc. apply Rmin_r.
Qed.

(** X17.  A node that starts incubating is still incubating after any run of
    one or more steps, and its sandbox is then at most 1.2, whatever sandbox
    it started with. *)
Theorem incubating_sandbox_capped cs c node s g n' :
  incubating node = true ->
  fst (fst (evolveSteps (c :: cs) node s g)) = Return n' ->
  incubating n' = true /\ sandbox n' <= 1.2.
Proof.
  revert c node s g. induction cs as [|c' cs IH]; intros c node s g Hinc Hrun.
  - rewrite (evolveSteps_Return_cons _ _ _ _ _ _ Hrun) in Hrun.
    simpl in Hrun. injection Hrun as <-.
    split; [|by apply evolved_sandbox_capped].
    rewrite evolved_incubating, evolved_growthPotential, Hinc.
    apply incubatingStep_low. lra.
  - rewrite (evolveSteps_Return_cons _ _ _ _ _ _ Hrun) in Hrun.
    apply IH in Hrun; [done|].
    rewrite evolved_incubating, evolved_growthPotential, Hinc.
    apply incubatingStep_low. lra.
Qed.

Lemma incubating_sandbox_capped_witness :
  exists n', fst (fst (evolveSteps [(ctxEmpty, 1%Z); (ctxNbr, 2%Z)] node0 store0
                         (constRng 0.5))) = Return n'
             /\ incubating n' = true /\ sandbox n' <= 1.2.
Proof.
  destruct (evolveSteps_returns_const 0.5 [(ctxEmpty, 1%Z); (ctxNbr, 2%Z)]
              node0 store0 (constRng 0.5)) as [n' Hn']; [reflexivity | lra |].
  exists n'. split; [exact Hn'|].
  apply (incubating_sandbox_capped [(ctxNbr, 2%Z)] (ctxEmpty, 1%Z) node0 store0
           (constRng 0.5) n'); [reflexivity | exact Hn'].
Defined.

(** X18.  For a node of coherence at most 92 with neighbours, a step moves
    the rotation 4% of the way to the neighbours' mean rotation: the
    distance to that mean shrinks by the factor 0.96, and the rotation stays
    between any two bounds of the node's and the neighbours' rotations. *)
Theorem evolveNode_rotation_contracts node ctx now s g n' lo hi :
  coherence node <= 92 ->
  neighbors ctx <> [] ->
  lo <= rotation node <= hi ->
  Forall (fun x => lo <= rotation x <= hi) (neighbors ctx) ->
  fst (fst (evolveNode node ctx now s g)) = Return n' ->
  rotation n' - avg (map rotation (neighbors ctx))
  = 0.96 * (rotation node - avg (map rotation (neighbors ctx)))
  /\ lo <= rotation n' <= hi.
Proof.
  intros Hc Hne Hr Hn H. apply evolveNode_Return in H. subst n'.
  rewrite evolved_rotation_calm by done. unfold alignRotation.
  rewrite bool_decide_eq_true_2 by (destruct (neighbors ctx); [done | simpl; lia]).
  assert (Hm : lo <= avg (map rotation (neighbors ctx)) <= hi).
  { apply avg_range; [by destruct (neighbors ctx)|].
    apply Forall_map. exact Hn. }
  split; lra.
Qed.

Lemma evolveNode_rotation_contracts_witness :
  rotation (evolved node0 ctxNbr store1 (constRng 0.5)) - avg (map rotation [node1])
  = 0.96 * (rotation node0 - avg (map rotation [node1]))
  /\ 0 <= rotation (evolved node0 ctxNbr store1 (constRng 0.5)) <= 1.
Proof.
  apply (evolveNode_rotation_contracts node0 ctxNbr 1 store1 (constRng 0.5)).
  - change (50 <= 92). lra.
  - done.
  - change (0 <= 0 <= 1). lra.
  - repeat constructor; change (rotation node1) with 1; lra.
  - apply (evolveNode_returns_const 0.5); [reflexivity | lra].
Defined.

(** X20.  The world bound leaves a position of length at most 500 alone and
    pulls any other back along its own direction to length 475; applying it
    twice changes nothing more. *)
Theorem worldBounds_behaviour p :
  (vlen p <= 500 -> worldBounds p = p)
  /\ (500 < vlen p -> worldBounds p = vscale p (475 / vlen p) /\ vlen (worldBounds p) = 475)
  /\ worldBounds (worldBounds p) = worldBounds p.
Proof.
  assert (Hin : forall q, vlen q <= 500 -> worldBounds q = q).
  { intros q H. unfold worldBounds. by rewrite gtb_false. }
  assert (Hout : 500 < vlen p ->
                 worldBounds p = vscale p (475 / vlen p) /\ vlen (worldBounds p) = 475).
  { intros H. unfold worldBounds. rewrite gtb_true by done.
    rewrite vnorm_nonzero by lra. rewrite vscale_vscale.
    replace (1 / vlen p * 475) with (475 / vlen p) by (field; lra).
    split; [done|]. rewrite vlen_vscale; [field; lra|].
    apply div_nonneg; lra. }
  split; [apply Hin|]. split; [exact Hout|].
  apply Hin. apply worldBounds_range.
Qed.

Lemma worldBounds_behaviour_witness :
  worldBounds (mkVec3 3 0 0) = mkVec3 3 0 0 /\ vlen (worldBounds (mkVec3 600 0 0)) = 475.
Proof.
  assert (H3 : vlen (mkVec3 3 0 0) = 3).
  { rewrite vlen_sqrt. cbn [vx vy vz].
    replace (3 * 3 + 0 * 0 + 0 * 0) with (3 * 3) by lra. apply sqrt_square. lra. }
  assert (H6 : vlen (mkVec3 600 0 0) = 600).
  { rewrite vlen_sqrt. cbn [vx vy vz].
    replace (600 * 600 + 0 * 0 + 0 * 0) with (600 * 600) by lra. apply sqrt_square. lra. }
  destruct (worldBounds_behaviour (mkVec3 3 0 0)) as (Ha & _ & _).
  destruct (worldBounds_behaviour (mkVec3 600 0 0)) as (_ & Hb & _).
  split; [apply Ha; lra | apply Hb; lra].
Defined.

(** X21.  A step takes three draws from the random source, or four when the
    breakthrough branch fires (input coherence above 92 and updated
    stagnation above 0.8); the draws after it are the stream shifted by that
    many. *)
Theorem evolveNode_draws node ctx now s g k :
  snd (evolveNode node ctx now s g) k
  = g (k + (if breakthroughGuard (coherence node) (stagnation (evolved node ctx s g))
            then 4 else 3))%nat.
Proof.
  rewrite evolveNode_rng.
  change (stagnation (evolved node ctx s g))
    with (stagnationStep (stagnation node) (velocityOf node s)).
  unfold evolveBody, jitterForce, breakthrough. cbn [fst snd].
  change (coherence (spread node)) with (coherence node).
  change (stagnation (spread node)) with (stagnation node).
  destruct (breakthroughGuard _ _); cbn [fst snd]; unfold rest; f_equal; lia.
Qed.

Lemma pushShift_Forall (P : R -> Prop) a v :
  Forall P a -> P v -> Forall P (pushShift a v).
Proof.
  intros Ha Hv. unfold pushShift.
  assert (H : Forall P (a ++ [v])) by (apply Forall_app; by repeat constructor).
  case_bool_decide; [|done].
  destruct (a ++ [v]) as [|w l]; [done|]. simpl. by apply Forall_cons_1 in H as [_ H].
Qed.

Lemma pushShift_nonempty a v : pushShift a v <> [].
Proof.
  intros H. apply (f_equal length) in H. rewrite pushShift_length in H.
  simpl in H. case_bool_decide; lia.
Qed.

(** X22.  The scores a step pushes are health values in [0,1]: if the
    history held only such values before, it holds only such values after,
    and the returned [incubationScore], their mean, is in [0,1] too. *)
Theorem evolveNode_history_scores node ctx now s g n' :
  Forall (fun v => 0 <= v <= 1) (numArrays s !!! incubationHistory node) ->
  fst (fst (evolveNode node ctx now s g)) = Return n' ->
  Forall (fun v => 0 <= v <= 1)
    (numArrays (snd (fst (evolveNode node ctx now s g))) !!! incubationHistory n')
  /\ 0 <= incubationScore n' <= 1.
Proof.
  intros Hh H. apply evolveNode_Return in H. subst n'.
  change (incubationHistory (evolved node ctx s g)) with (incubationHistory node).
  rewrite evolveNode_store, body_incubationHistory.
  set (h := healthOf _ _ _).
  assert (Hv : 0 <= h <= 1) by (unfold h, healthOf; apply clamp_bounds; lra).
  pose proof (pushShift_Forall _ _ h Hh Hv) as Hf.
  split; [exact Hf|].
  assert (E : incubationScore (evolved node ctx s g)
              = avg (pushShift (numArrays s !!! incubationHistory node) h)).
  { pose proof (body_incubationHistory node ctx s g) as Hb. fold h in Hb.
    rewrite <- Hb. unfold evolved, evolveBody. cbn [fst snd incubationScore].
    cbn [setNumArray numArrays]. rewrite lookup_total_insert_eq. reflexivity. }
  rewrite E. apply avg_range; [apply pushShift_nonempty | exact Hf].
Qed.

Lemma evolveNode_history_scores_witness :
  0 <= incubationScore (evolved node0 ctxEmpty store0 (constRng 0.5)) <= 1.
Proof.
  apply (evolveNode_history_scores node0 ctxEmpty 1 store0 (constRng 0.5)).
  - rewrite node0_incubationHistory. constructor.
  - apply (evolveNode_returns_const 0.5); [reflexivity | lra].
Defined.

Lemma evolved_coherence node ctx s g :
  coherence (evolved node ctx s g)
  = clamp (10 * sum (contributions ctx) / (entropy (evolved node ctx s g) + 1)) 0 100.
Proof.
  change (coherence (evolved node ctx s g))
    with (coherenceStep (contributions ctx) (entropy (evolved node ctx s g))
            (growthPotential (evolved node ctx s g))).
  rewrite evolved_growthPotential. unfold coherenceStep. f_equal. lra.
Qed.

(** X23.  The new coherence depends on the contributions and the new entropy
    only: it is [clamp(10 * sum / (entropy + 1), 0, 100)], the growth factor
    being always 1.  When the contributions sum to 0 or less, and so when
    there are none, the coherence drops to 0 and the node is no observer;
    when they sum to 10010 or more it is 100. *)
Theorem evolveNode_coherence node ctx now s g n' :
  fst (fst (evolveNode node ctx now s g)) = Return n' ->
  coherence n' = clamp (10 * sum (contributions ctx) / (entropy n' + 1)) 0 100
  /\ (sum (contributions ctx) <= 0 -> coherence n' = 0 /\ observer n' = false)
  /\ (10010 <= sum (contributions ctx) -> coherence n' = 100).
Proof.
  intros H. apply evolveNode_Return in H. subst n'.
  pose proof (evolved_entropy_range node ctx s g) as He.
  pose proof (evolved_coherence node ctx s g) as Ec.
  set (e := entropy (evolved node ctx s g)) in *.
  set (S := sum (contributions ctx)) in *.
  assert (Em : 10 * S / (e + 1) * (e + 1) = 10 * S) by (field; lra).
  split; [exact Ec|]. split.
  - intros HS.
    assert (E0 : coherence (evolved node ctx s g) = 0).
    { rewrite Ec. apply clamp_low; [lra|]. nra. }
    split; [exact E0|].
    change (observer (evolved node ctx s g))
      with (gtb (coherence (evolved node ctx s g)) 85
            && bool_decide (3 <= length (children node))%nat).
    rewrite E0, gtb_false by lra. done.
  - intros HS. rewrite Ec. apply clamp_high; [lra|]. nra.
Qed.

Lemma evolveNode_coherence_witness :
  coherence (evolved node0 ctxEmpty store0 (constRng 0.5)) = 0
  /\ observer (evolved node0 ctxEmpty store0 (constRng 0.5)) = false.
Proof.
  destruct (evolveNode_coherence node0 ctxEmpty 1 store0 (constRng 0.5)
              (evolved node0 ctxEmpty store0 (constRng 0.5))) as (_ & H & _).
  - apply (evolveNode_returns_const 0.5); [reflexivity | lra].
  - apply H. change (sum [] <= 0). rewrite sum_nil. lra.
Defined.

(** X24.  For a node that is not incubating and whose sandbox lies in
    [0.3,10], a step changes the sandbox by at most 0.6% either way. *)
Theorem evolveNode_sandbox_ratchet node ctx now s g n' :
  incubating node = false ->
  0.3 <= sandbox node <= 10 ->
  fst (fst (evolveNode node ctx now s g)) = Return n' ->
  0.994 * sandbox node <= sandbox n' <= 1.006 * sandbox node.
Proof.
  intros Hi Hs H. apply evolveNode_Return in H. subst n'.
  change (sandbox (evolved node ctx s g))
    with (if incubating (evolved node ctx s g)
          then Rmin (sandboxStep (coherence (evolved node ctx s g)) (sandbox node)) 1.2
          else sandboxStep (coherence (evolved node ctx s g)) (sandbox node)).
  rewrite (evolved_incubating_false node ctx s g Hi).
  unfold sandboxStep, Rmin, Rmax. destruct (gtb _ 80); destruct Rle_dec; lra.
Qed.

Lemma evolveNode_sandbox_ratchet_witness :
  0.994 * sandbox nodeFree
  <= sandbox (evolved nodeFree ctxEmpty storeFree (constRng 0.5))
  <= 1.006 * sandbox nodeFree.
Proof.
  apply (evolveNode_sandbox_ratchet nodeFree ctxEmpty 1 storeFree (constRng 0.5)).
  - reflexivity.
  - change (0.3 <= 2 <= 10). lra.
  - apply (evolveNode_returns_const 0.5); [reflexivity | lra].
Defined.

(** ** Observer gaze *)

Lemma gazeOf_bounds all p gaze oid :
  gaze <= gazeOf all p gaze oid
  /\ (skipped all p oid -> gazeOf all p gaze oid = gaze).
Proof.
  unfold gazeOf, skipped. destruct (all !! oid) as [obs|]; [|split; [lra | done]].
  unfold leb, gtb.
  case_bool_decide as H1; [split; [lra | done]|].
  case_bool_decide as H2; [split; [lra | done]|].
  split; [|intros [?|?]; lra].
  case_bool_decide; [|lra].
  pose proof (clamp_bounds (vlen (vsub p (pos obs)) / range obs) 0 1 ltac:(lra)).
  nra.
Qed.

Lemma gaze_fold_ge all p l : forall a, a <= foldl (gazeOf all p) a l.
Proof.
  induction l as [|oid l IH]; intros a; simpl; [lra|].
  pose proof (gazeOf_bounds all p a oid) as [H _].
  specialize (IH (gazeOf all p a oid)). lra.
Qed.

Lemma gaze_fold_skipped all p l :
  Forall (skipped all p) l -> forall a, foldl (gazeOf all p) a l = a.
Proof.
  induction 1 as [|oid l Ho Hl IH]; intros a; simpl; [done|].
  pose proof (gazeOf_bounds all p a oid) as [_ H]. rewrite (H Ho). apply IH.
Qed.

(** X25.  The gaze a node receives is never negative.  It is 0 without a
    region and 0 when every registered observer id is unknown to the lookup,
    has coherence 80 or less, or is further away than its range: a missing
    id is skipped, not an error. *)
Theorem observerGaze_bounds ro all p :
  0 <= observerGaze ro all p
  /\ observerGaze None all p = 0
  /\ (forall r, Forall (skipped all p) (observers r) -> observerGaze (Some r) all p = 0).
Proof.
  repeat split.
  - destruct ro as [r|]; cbn [observerGaze]; [apply gaze_fold_ge | lra].
  - intros r H. cbn [observerGaze]. by apply gaze_fold_skipped.
Qed.

Lemma observerGaze_bounds_witness :
  observerGaze (Some (mkRegion "o" None 0.1 0 ["ghost"] 0 vzero 0.005 5%positive))
    ∅ vzero = 0.
Proof.
  destruct (observerGaze_bounds None ∅ vzero) as (_ & _ & H).
  apply H. repeat constructor.
Defined.

(** ** Neighbour forces *)






(** ** The audit trail *)

(** X27.  No run of steps ever adds a checkpoint: every token array of the
    store is the same after the run as before, whether the run returns or
    ends in an exception.  The audit trail of a node stays as the
    constructor left it. *)
Theorem evolveSteps_no_checkpoint cs node s g :
  tokArrays (snd (fst (evolveSteps cs node s g))) = tokArrays s.
Proof.
  revert node s g. induction cs as [|c cs IH]; intros node s g; [done|].
  cbn [evolveSteps].
  destruct (fst (fst (evolveNode node (fst c) (snd c) s g))) as [n1|e] eqn:E.
  - rewrite IH, evolveNode_store. apply body_history.
  - cbn [fst snd]. rewrite evolveNode_store. apply body_history.
Qed.

(** ** The Node constructor *)

Lemma fresh_lookup {A} (m : gmap loc A) : m !! fresh (dom m) = None.
Proof. apply not_elem_of_dom. apply is_fresh. Qed.

Lemma newNode_history_empty id ty angs opts now s g :
  numArrays (snd (fst (newNode id ty angs opts now s g)))
    !!! incubationHistory (fst (fst (newNode id ty angs opts now s g))) = [].
Proof.
  unfold newNode. cbn [fst snd incubationHistory]. unfold snapshot.
  unfold setTokArray, setNumArray. cbn [numArrays].
  apply lookup_total_insert_eq.
Qed.

(** X28.  [new Node(...)] gives the node two arrays of its own, at addresses
    no array occupied before: an empty [incubationHistory] and a [history]
    holding exactly one checkpoint, taken from the fields of the new node.
    Every array that existed before, and every region's [meanTheta], is
    untouched, and the node can take snapshots. *)
Theorem newNode_allocates id ty angs opts now s g :
  numArrays s !! incubationHistory (fst (fst (newNode id ty angs opts now s g))) = None
  /\ tokArrays s !! history (fst (fst (newNode id ty angs opts now s g))) = None
  /\ numArrays (snd (fst (newNode id ty angs opts now s g)))
       !!! incubationHistory (fst (fst (newNode id ty angs opts now s g))) = []
  /\ tokArrays (snd (fst (newNode id ty angs opts now s g)))
       !!! history (fst (fst (newNode id ty angs opts now s g)))
     = [ {| cp_id := id;
            cp_hue := hue (fst (fst (newNode id ty angs opts now s g)));
            cp_rotation := rotation (fst (fst (newNode id ty angs opts now s g)));
            cp_coherence := default 50 (o_coherence opts);
            cp_entropy := default 1 (o_entropy opts);
            cp_sandbox := default 1 (o_sandbox opts);
            cp_region := rid <$> o_region opts;
            cp_pos := pos (fst (fst (newNode id ty angs opts now s g)));
            cp_t := now |} ]
  /\ (forall l, numArrays s !! l <> None ->
        numArrays (snd (fst (newNode id ty angs opts now s g))) !! l = numArrays s !! l)
  /\ (forall l, tokArrays s !! l <> None ->
        tokArrays (snd (fst (newNode id ty angs opts now s g))) !! l = tokArrays s !! l)
  /\ thetas (snd (fst (newNode id ty angs opts now s g))) = thetas s
  /\ lookupSnapshot (fst (fst (newNode id ty angs opts now s g))) = Some snapshot.
Proof.
  unfold newNode. cbn [fst snd incubationHistory history hue rotation pos].
  unfold snapshot. cbn [history nid hue rotation coherence entropy sandbox region pos].
  unfold setTokArray, setNumArray. cbn [numArrays tokArrays thetas].
  repeat split.
  - apply fresh_lookup.
  - apply fresh_lookup.
  - apply lookup_total_insert_eq.
  - by rewrite !lookup_total_insert_eq.
  - intros l Hl. apply lookup_insert_ne. intros <-. apply Hl, fresh_lookup.
  - intros l Hl. rewrite !lookup_insert_ne; [done| |];
      intros <-; apply Hl, fresh_lookup.
Qed.

Lemma newNode_allocates_witness :
  numArrays store1 !! incubationHistory node0 = numArrays store0 !! incubationHistory node0.
Proof.
  destruct (newNode_allocates "n1" "triangle" [60; 60; 60] (fixedOpts 1 1 true) 0 store0
              (constRng 0.5)) as (_ & _ & _ & _ & H & _).
  apply H. discriminate.
Defined.

(** X29.  Built without options from draws in [0,1), a node takes four draws
    and starts inside its bounds: hue in [0,1), rotation in [0, 2 PI), a
    position within 20 of the origin on each axis and in the plane, the
    documented defaults elsewhere.  It satisfies everything a step needs of
    its input. *)
Theorem newNode_defaults id ty angs now s g :
  (forall k, 0 <= g k < 1) ->
  admissible (fst (fst (newNode id ty angs noOpts now s g)))
    (snd (fst (newNode id ty angs noOpts now s g)))
  /\ 0 <= rotation (fst (fst (newNode id ty angs noOpts now s g))) < 2 * PI
  /\ -20 <= vx (pos (fst (fst (newNode id ty angs noOpts now s g)))) < 20
  /\ -20 <= vy (pos (fst (fst (newNode id ty angs noOpts now s g)))) < 20
  /\ vz (pos (fst (fst (newNode id ty angs noOpts now s g)))) = 0
  /\ coherence (fst (fst (newNode id ty angs noOpts now s g))) = 50
  /\ entropy (fst (fst (newNode id ty angs noOpts now s g))) = 1
  /\ stagnation (fst (fst (newNode id ty angs noOpts now s g))) = 0
  /\ incubating (fst (fst (newNode id ty angs noOpts now s g))) = true
  /\ sides (fst (fst (newNode id ty angs noOpts now s g))) = length angs
  /\ (forall k, snd (newNode id ty angs noOpts now s g) k = g (k + 4)%nat).
Proof.
  intros Hg. pose proof PI_RGT_0 as Hpi.
  pose proof (newNode_history_empty id ty angs noOpts now s g) as Hh.
  unfold admissible. rewrite Hh. clear Hh.
  unfold newNode, noOpts, orDraw, draw, rest.
  cbn [fst snd o_hue o_rotation o_pos o_coherence o_entropy o_sandbox o_mass
       o_incubating hue rotation pos coherence entropy sandbox mass stagnation
       incubating sides vx vy vz default].
  pose proof (Hg 0%nat). pose proof (Hg 1%nat). pose proof (Hg 2%nat). pose proof (Hg 3%nat).
  repeat split; try lra; try nra; try (simpl; lia).
  intros k. f_equal. lia.
Qed.

Lemma newNode_defaults_witness :
  admissible (fst (fst (newNode "a" "triangle" [60; 60; 60] noOpts 0 emptyStore (constRng 0.5))))
    (snd (fst (newNode "a" "triangle" [60; 60; 60] noOpts 0 emptyStore (constRng 0.5)))).
Proof.
  destruct (newNode_defaults "a" "triangle" [60; 60; 60] 0 emptyStore (constRng 0.5))
    as [H _]; [|exact H].
  intros k. unfold constRng. lra.
Defined.

(** ** An isolated node *)

Lemma jitter_bound coh d :
  0 <= coh <= 100 -> 0 <= d < 1 ->
  Rabs ((d - 0.5) * 0.0005 * (1 + (1 - coh / 100) * 1.5)) <= 0.000625.
Proof.
  intros Hc Hd. set (j := 1 + (1 - coh / 100) * 1.5).
  assert (Hj : 1 <= j <= 2.5) by (unfold j; lra).
  unfold Rabs. destruct Rcase_abs; nra.
Qed.

(** X30.  A node without neighbours and without a region feels the motion
    jitter only: with draws in [0,1) and coherence in [0,100] the
    acceleration has no z component and, times the mass, at most 0.000625 on
    each of the other axes; the new velocity is the old one damped by 0.98
    plus that acceleration, and the gaze is 0. *)
Theorem evolveNode_isolated node ctx now s g n' :
  neighbors ctx = [] -> spatialNeighbors ctx = None -> regionObj ctx = None ->
  mass node <> 0 -> 0 <= coherence node <= 100 ->
  (forall k, 0 <= g k < 1) ->
  fst (fst (evolveNode node ctx now s g)) = Return n' ->
  vz (acc n') = 0
  /\ Rabs (vx (acc n') * mass node) <= 0.000625
  /\ Rabs (vy (acc n') * mass node) <= 0.000625
  /\ vel n' = vadd (vscale (vel node) 0.98) (acc n')
  /\ gazeIntensity (awareness n') = 0.
Proof.
  intros Hn Hsn Hr Hm Hc Hg H. apply evolveNode_Return in H. subst n'.
  unfold evolved, evolveBody. cbn [fst snd acc vel awareness gazeIntensity].
  unfold spatialNbrOf. rewrite Hn, Hsn, Hr.
  change (filter _ []) with (@nil Node).
  unfold neighborForce. rewrite bool_decide_eq_false_2 by (simpl; lia).
  cbn [fieldForce observerGaze].
  change (coherence (spread node)) with (coherence node).
  change (mass (spread node)) with (mass node).
  change (vel (spread node)) with (vel node).
  unfold jitterForce. cbn [fst snd vx vy vz vscale vzero]. rewrite orElse_0.
  set (g1 := snd (breakthrough _ _ _ _ g)).
  assert (Hg1 : forall k, 0 <= g1 k < 1).
  { intros k. unfold g1, breakthrough.
    destruct (breakthroughGuard _ _); cbn [snd]; unfold rest; apply Hg. }
  pose proof (jitter_bound (coherence node) (draw g1) Hc (Hg1 0%nat)) as Hx.
  pose proof (jitter_bound (coherence node) (draw (rest g1)) Hc (Hg1 1%nat)) as Hy.
  repeat split.
  - lra.
  - replace ((0 + (draw g1 - 0.5) * 0.0005 * (1 + (1 - coherence node / 100) * 1.5))
             * (1 / mass node) * mass node)
      with ((draw g1 - 0.5) * 0.0005 * (1 + (1 - coherence node / 100) * 1.5))
      by (field; done).
    exact Hx.
  - replace ((0 + (draw (rest g1) - 0.5) * 0.0005 * (1 + (1 - coherence node / 100) * 1.5))
             * (1 / mass node) * mass node)
      with ((draw (rest g1) - 0.5) * 0.0005 * (1 + (1 - coherence node / 100) * 1.5))
      by (field; done).
    exact Hy.
Qed.

Lemma evolveNode_isolated_witness :
  vz (acc (evolved node0 ctxEmpty store0 (constRng 0.5))) = 0
  /\ Rabs (vx (acc (evolved node0 ctxEmpty store0 (constRng 0.5))) * mass node0) <= 0.000625.
Proof.
  destruct (evolveNode_isolated node0 ctxEmpty 1 store0 (constRng 0.5)
              (evolved node0 ctxEmpty store0 (constRng 0.5))) as (H1 & H2 & _);
    try reflexivity.
  - change (mass node0) with 1. lra.
  - change (coherence node0) with 50. lra.
  - intros k. unfold constRng. lra.
  - apply (evolveNode_returns_const 0.5); [reflexivity | lra].
  - split; [exact H1 | exact H2].
Defined.
